(** * A signaling relay for WebRTC over WebSocket: session lifecycle

    Shallow embedding of [main.go] (package [main]): the [Client] record, the
    process-wide [clients] registry, [sendJSON], the body of [handleWebSocket]
    (registration, pong handler, liveness goroutine, receive loop with its
    deferred [cleanupClient]), [handleOffer], [handleICE] and [cleanupClient].

    The repository holds further variants of the same server; where they
    differ from [main.go] on a property below, the variant function is
    embedded next to it (module [part_001]).

    The WebSocket library (gorilla), the JSON decoder (encoding/json) and the
    negotiation capability (pion) are external.  What they return is an input
    of the model: a received frame comes with the result of [json.Unmarshal],
    and every handler takes the errors the external calls will report.  What
    the program does to them is recorded in a trace of effects. *)

From stdpp Require Import base gmap sets list strings.
From Stdlib Require Import ZArith Floats.

#[local] Set Warnings "-register-all".
#[local] Open Scope Z_scope.

(** ** Values decoded by [json.Unmarshal] into [interface{}] *)

Inductive json : Type :=
| JNull
| JBool (b : bool)
| JNumber (f : float)
| JString (s : string)
| JArray (l : list json)
| JObject (m : gmap string json).

(** [m[k]] on a [map[string]interface{}]: the zero value [nil] when the key
    is absent (also on a nil map). *)
Definition index (m : gmap string json) (k : string) : json :=
  default JNull (m !! k).

(** [v == "lit"] for [v : interface{}], as the [switch] on [data["type"]]
    compares it. *)
Definition string_is (v : json) (lit : string) : bool :=
  match v with
  | JString s => String.eqb s lit
  | _ => false
  end.

(** The dynamic type a failed conversion reports. *)
Definition typeName (v : json) : string :=
  match v with
  | JNull => "nil"
  | JBool _ => "bool"
  | JNumber _ => "float64"
  | JString _ => "string"
  | JArray _ => "[]interface {}"
  | JObject _ => "map[string]interface {}"
  end.

(** Checked conversions [x, ok := v.(T)]: [None] stands for [ok = false]. *)
Definition as_string (v : json) : option string :=
  match v with JString s => Some s | _ => None end.

Definition as_float64 (v : json) : option float :=
  match v with JNumber f => Some f | _ => None end.

Definition as_map (v : json) : option (gmap string json) :=
  match v with JObject m => Some m | _ => None end.

(** [uint16(f)] for a [float64]: the fraction is discarded.  Go leaves the
    result open when the value does not fit; the model wraps it. *)
Definition float64_trunc (f : float) : Z :=
  match Prim2SF f with
  | S754_finite sign m e =>
      let mag := if 0 <=? e then Z.pos m * 2 ^ e else Z.pos m / 2 ^ (- e) in
      if sign then - mag else mag
  | _ => 0
  end.

Definition uint16 (f : float) : Z := float64_trunc f mod 65536.

(** ** Program state *)

Abbreviation ptr := positive.

(** [time.Time] and [time.Duration], in nanoseconds. *)
Definition Second : Z := 1000000000.

(** [webrtc.ICECandidateInit]. *)
Record ICECandidateInit : Type := {
  Candidate : string;
  SDPMid : option string;
  SDPMLineIndex : option Z;
  UsernameFragment : option string;
}.

(** The [*websocket.Conn] of a client.  [Upgrade] creates it for this client
    alone and no other client ever holds it, so it is stored in place. *)
Record Conn : Type := {
  closed : bool;
  readDeadline : Z;
}.

(** [type Client struct].  The mutex [mu] has no field here: taking and
    releasing it are effects ([MuLock], [MuUnlock]). *)
Record Client : Type := {
  conn : option Conn;
  pc : option ptr;
  lastActivity : Z;
}.

(** A [*webrtc.PeerConnection] as far as this program sees it: the client
    its [OnICECandidate] callback captured, and whether [Close] was called. *)
Record PeerConnection : Type := {
  onICECandidate : option ptr;
  pc_closed : bool;
}.

Record World : Type := {
  clients : gmap ptr bool;          (* var clients = make(map[*Client]bool) *)
  heap : gmap ptr Client;           (* the Client objects, by address *)
  pcs : gmap ptr PeerConnection;    (* the peer connections, by address *)
  nextPtr : ptr;                    (* next address to allocate *)
  readers : gset ptr;               (* clients whose receive loop is running *)
  monitors : gset ptr;              (* clients whose liveness goroutine is running *)
}.

Definition set_clients (f : gmap ptr bool → gmap ptr bool) (w : World) : World :=
  {| clients := f (clients w); heap := heap w; pcs := pcs w;
     nextPtr := nextPtr w; readers := readers w; monitors := monitors w |}.

Definition set_heap (f : gmap ptr Client → gmap ptr Client) (w : World) : World :=
  {| clients := clients w; heap := f (heap w); pcs := pcs w;
     nextPtr := nextPtr w; readers := readers w; monitors := monitors w |}.

Definition set_pcs (f : gmap ptr PeerConnection → gmap ptr PeerConnection)
    (w : World) : World :=
  {| clients := clients w; heap := heap w; pcs := f (pcs w);
     nextPtr := nextPtr w; readers := readers w; monitors := monitors w |}.

Definition set_nextPtr (f : ptr → ptr) (w : World) : World :=
  {| clients := clients w; heap := heap w; pcs := pcs w;
     nextPtr := f (nextPtr w); readers := readers w; monitors := monitors w |}.

Definition set_readers (f : gset ptr → gset ptr) (w : World) : World :=
  {| clients := clients w; heap := heap w; pcs := pcs w;
     nextPtr := nextPtr w; readers := f (readers w); monitors := monitors w |}.

Definition set_monitors (f : gset ptr → gset ptr) (w : World) : World :=
  {| clients := clients w; heap := heap w; pcs := pcs w;
     nextPtr := nextPtr w; readers := readers w; monitors := f (monitors w) |}.

Definition with_pc (p : option ptr) (cl : Client) : Client :=
  {| conn := conn cl; pc := p; lastActivity := lastActivity cl |}.

Definition with_lastActivity (t : Z) (cl : Client) : Client :=
  {| conn := conn cl; pc := pc cl; lastActivity := t |}.

Definition with_conn (k : option Conn) (cl : Client) : Client :=
  {| conn := k; pc := pc cl; lastActivity := lastActivity cl |}.

Definition empty_world : World :=
  {| clients := ∅; heap := ∅; pcs := ∅; nextPtr := 1%positive;
     readers := ∅; monitors := ∅ |}.

(** ** Effects *)

(** A value passed to [WriteJSON] inside a [map[string]interface{}]. *)
Inductive payload : Type :=
| PString (s : string)
| PCandidate (c : ICECandidateInit).

Inductive pion_call : Type :=
| NewPeerConnection
| OnICECandidate
| OnICEConnectionStateChange
| OnConnectionStateChange
| CreateDataChannel (label : string)
| SetRemoteDescription (sdp : string)
| CreateAnswer
| SetLocalDescription (sdp : string)
| AddICECandidate (init : ICECandidateInit)
| PcClose.

Inductive effect : Type :=
| Log (line : string)
| MutexLock                                   (* mutex.Lock(), the registry lock *)
| MutexUnlock
| MuLock (c : ptr)                            (* c.mu.Lock() *)
| MuUnlock (c : ptr)
| RegistryInsert (c : ptr)                    (* clients[c] = true *)
| RegistryDelete (c : ptr)                    (* delete(clients, c) *)
| ConnWriteJSON (c : ptr) (v : gmap string payload)
| ConnWritePing (c : ptr)                     (* WriteMessage(PingMessage, nil) *)
| ConnClose (c : ptr)
| Pion (p : ptr) (call : pion_call).

Inductive panic : Type :=
| InterfaceConversion (got want : string)     (* a failed v.(T) *)
| NilDereference.

Inductive outcome (A : Type) : Type :=
| Done (a : A)
| Panics (p : panic).
Arguments Done {A} a.
Arguments Panics {A} p.

(** A Go statement sequence: it reads and writes the world, leaves a trace,
    and either completes or panics. *)
Definition go (A : Type) : Type := World → outcome A * World * list effect.

Definition go_ret {A} (a : A) : go A := λ w, (Done a, w, []).

Definition go_bind {A B} (k : A → go B) (m : go A) : go B := λ w,
  match m w with
  | (Done a, w1, t1) =>
      match k a w1 with
      | (r, w2, t2) => (r, w2, t1 ++ t2)
      end
  | (Panics p, w1, t1) => (Panics p, w1, t1)
  end.

#[global] Instance go_mret : MRet go := @go_ret.
#[global] Instance go_mbind : MBind go := @go_bind.

Definition emit (e : effect) : go unit := λ w, (Done tt, w, [e]).
Definition throw {A} (p : panic) : go A := λ w, (Panics p, w, []).
Definition get : go World := λ w, (Done w, w, []).
Definition modify (f : World → World) : go unit := λ w, (Done tt, f w, []).

(** [defer d] around [body]: [d] runs when [body] returns and when it
    panics; the panic then goes on. *)
Definition defer {A} (d : go unit) (body : go A) : go A := λ w,
  match body w with
  | (r, w1, t1) =>
      match d w1 with
      | (Done _, w2, t2) => (r, w2, t1 ++ t2)
      | (Panics p, w2, t2) => (Panics p, w2, t1 ++ t2)
      end
  end.

(** Unchecked conversions [v.(T)]: a run-time panic when the dynamic type
    differs. *)
Definition assert_string (v : json) : go string :=
  match v with
  | JString s => mret s
  | _ => throw (InterfaceConversion (typeName v) "string")
  end.

Definition assert_float64 (v : json) : go float :=
  match v with
  | JNumber f => mret f
  | _ => throw (InterfaceConversion (typeName v) "float64")
  end.

Definition assert_map (v : json) : go (gmap string json) :=
  match v with
  | JObject m => mret m
  | _ => throw (InterfaceConversion (typeName v) "map[string]interface {}")
  end.

(** Reading and writing through a [*Client]. *)
Definition load (client : ptr) : go Client := λ w,
  match heap w !! client with
  | Some cl => (Done cl, w, [])
  | None => (Panics NilDereference, w, [])
  end.

Definition store (client : ptr) (f : Client → Client) : go unit :=
  cl ← load client;
  modify (set_heap <[client := f cl]>).

(** ** External results *)

(** What the external calls made while one frame is handled will return. *)
Record extern : Type := {
  NewPeerConnection_err : bool;
  CreateDataChannel_err : bool;
  SetRemoteDescription_err : bool;
  CreateAnswer_sdp : option string;     (* [answer.SDP]; [None] when [err != nil] *)
  SetLocalDescription_err : bool;
  AddICECandidate_err : bool;
  WriteJSON_err : bool;
}.

(** [conn.ReadMessage()] followed by [json.Unmarshal(msg, &data)]. *)
Inductive read : Type :=
| ReadError                                        (* ReadMessage: err != nil *)
| Frame (data : option (gmap string json)).        (* [None]: Unmarshal failed *)

Inductive ctl : Type := Continue | Return.

(** ** main.go *)

(** [func (c *Client) sendJSON(data interface{}) error]; the result is
    [err != nil]. *)
Definition sendJSON (c : ptr) (data : gmap string payload) (write_err : bool)
    : go bool :=
  emit (MuLock c);;
  defer (emit (MuUnlock c))
    (cl ← load c;
     match conn cl with
     | None => throw NilDereference
     | Some _ => emit (ConnWriteJSON c data);; mret write_err
     end).

(** [func cleanupClient(client *Client)]. *)
Definition cleanupClient (client : ptr) : go unit :=
  emit MutexLock;;
  defer (emit MutexUnlock)
    (w ← get;
     match clients w !! client with
     | Some _ =>
         cl ← load client;
         match pc cl with
         | Some p =>
             emit (Pion p PcClose);;
             modify (set_pcs (alter (λ o,
               {| onICECandidate := onICECandidate o; pc_closed := true |}) p))
         | None => mret tt
         end;;
         match conn cl with
         | Some k =>
             emit (ConnClose client);;
             store client (with_conn
               (Some {| closed := true; readDeadline := readDeadline k |}))
         | None => mret tt
         end;;
         emit (RegistryDelete client);;
         modify (set_clients (delete client));;
         emit (Log "Client cleaned up")
     | None => mret tt
     end).

(** The callback [handleOffer] passes to [pc.OnICECandidate]. *)
Definition candidateCallback (client : ptr) (c : option ICECandidateInit)
    (write_err : bool) : go unit :=
  match c with
  | None => mret tt
  | Some cand =>
      err ← sendJSON client
              {[ "type" := PString "ice"; "candidate" := PCandidate cand ]}
              write_err;
      if err : bool then emit (Log "Write ICE candidate error:") else mret tt
  end.

(** [func handleOffer(client *Client, sdp string)]. *)
Definition handleOffer (client : ptr) (sdp : string) (x : extern) : go unit :=
  emit (Log "Received offer, creating PeerConnection");;
  if NewPeerConnection_err x then emit (Log "PeerConnection error:")
  else
    w ← get;
    let p := nextPtr w in
    emit (Pion p NewPeerConnection);;
    modify (set_nextPtr Pos.succ);;
    modify (set_pcs <[p := {| onICECandidate := None; pc_closed := false |}]>);;
    store client (with_pc (Some p));;
    emit (Pion p OnICECandidate);;
    modify (set_pcs (alter (λ o,
      {| onICECandidate := Some client; pc_closed := pc_closed o |}) p));;
    emit (Pion p OnICEConnectionStateChange);;
    emit (Pion p OnConnectionStateChange);;
    emit (Pion p (CreateDataChannel "chat"));;
    (if CreateDataChannel_err x then emit (Log "DataChannel error:") else mret tt);;
    emit (Pion p (SetRemoteDescription sdp));;
    if SetRemoteDescription_err x then emit (Log "SetRemoteDescription error:")
    else
      emit (Pion p CreateAnswer);;
      match CreateAnswer_sdp x with
      | None => emit (Log "CreateAnswer error:")
      | Some answer =>
          emit (Pion p (SetLocalDescription answer));;
          if SetLocalDescription_err x then emit (Log "SetLocalDescription error:")
          else
            err ← sendJSON client
                    {[ "type" := PString "answer"; "sdp" := PString answer ]}
                    (WriteJSON_err x);
            if err : bool then emit (Log "Send answer error:") else mret tt
      end.

(** [func handleICE(client *Client, candidate map[string]interface{})]. *)
Definition handleICE (client : ptr) (candidate : gmap string json) (x : extern)
    : go unit :=
  cl ← load client;
  match pc cl with
  | None => mret tt
  | Some p =>
      cand ← assert_string (index candidate "candidate");
      mid ← assert_string (index candidate "sdpMid");
      idx ← assert_float64 (index candidate "sdpMLineIndex");
      ufrag ← assert_string (index candidate "usernameFragment");
      let iceCandidate :=
        {| Candidate := cand; SDPMid := Some mid;
           SDPMLineIndex := Some (uint16 idx); UsernameFragment := Some ufrag |} in
      emit (Pion p (AddICECandidate iceCandidate));;
      if AddICECandidate_err x then emit (Log "AddICECandidate error:") else mret tt
  end.

(** [handleWebSocket] up to its receive loop: upgrade, the new [Client], its
    registration and read deadline; the liveness goroutine and the receive
    loop start. *)
Definition handleWebSocket_open (now : Z) (upgrade_err : bool) : go (option ptr) :=
  if upgrade_err then emit (Log "WebSocket upgrade error:");; mret None
  else
    emit (Log "New WebSocket connection established");;
    w ← get;
    let client := nextPtr w in
    modify (set_nextPtr Pos.succ);;
    modify (set_heap <[client :=
      {| conn := Some {| closed := false; readDeadline := now + 60 * Second |};
         pc := None; lastActivity := now |}]>);;
    emit MutexLock;;
    emit (RegistryInsert client);;
    modify (set_clients <[client := true]>);;
    emit MutexUnlock;;
    modify (set_monitors (λ s, {[client]} ∪ s));;
    modify (set_readers (λ s, {[client]} ∪ s));;
    mret (Some client).

(** The handler passed to [conn.SetPongHandler]. *)
Definition pongHandler (client : ptr) (now : Z) : go unit :=
  store client (λ cl,
    {| conn := (λ k, {| closed := closed k; readDeadline := now + 60 * Second |})
                 <$> conn cl;
       pc := pc cl; lastActivity := now |}).

(** One round of the receive loop [for { _, msg, err := conn.ReadMessage() ... }]. *)
Definition receive (client : ptr) (now : Z) (r : read) (x : extern) : go ctl :=
  match r with
  | ReadError => emit (Log "Read error:");; mret Return
  | Frame decoded =>
      store client (with_lastActivity now);;
      match decoded with
      | None => emit (Log "JSON unmarshal error:");; mret Continue
      | Some data =>
          if string_is (index data "type") "offer" then
            sdp ← assert_string (index data "sdp");
            handleOffer client sdp x;;
            mret Continue
          else if string_is (index data "type") "ice" then
            candidate ← assert_map (index data "candidate");
            handleICE client candidate x;;
            mret Continue
          else mret Continue
      end
  end.

(** How far a goroutine got on the inputs it was given. *)
Inductive progress : Type :=
| Waiting        (* blocked on the next frame or tick *)
| Returned.

Fixpoint receiveLoop (client : ptr) (inputs : list (Z * read * extern))
    : go progress :=
  match inputs with
  | [] => mret Waiting
  | (now, r, x) :: rest =>
      c ← receive client now r x;
      match c with
      | Continue => receiveLoop client rest
      | Return => mret Returned
      end
  end.

(** The receive loop under [defer cleanupClient(client)]: the deferred call
    runs once the loop returns or panics, not while it waits for a frame. *)
Definition serve (client : ptr) (inputs : list (Z * read * extern)) : go progress :=
  λ w,
    match receiveLoop client inputs w with
    | (Done Waiting, w1, t1) => (Done Waiting, w1, t1)
    | _ => defer (cleanupClient client) (receiveLoop client inputs) w
    end.

(** One tick of the liveness goroutine, the body of [case <-ticker.C]: the
    goroutine goes on to the next tick, or returns after the timeout branch
    or after the failed ping. *)
Inductive tick_end : Type := NextTick | Timeout | PingError.

Definition tick (client : ptr) (now : Z) (ping_err : bool) : go tick_end :=
  cl ← load client;
  if 45 * Second <? now - lastActivity cl then
    emit (Log "Connection timeout, closing...");;
    cleanupClient client;;
    mret Timeout
  else
    emit (ConnWritePing client);;
    if ping_err then emit (Log "Ping error:");; mret PingError
    else mret NextTick.

(** Why the liveness goroutine ended, and at which tick. *)
Inductive monitor_end : Type :=
| Ticking
| TimedOut (at_time : Z)
| PingFailed (at_time : Z).

(** The liveness goroutine over the ticks it receives from [ticker.C], each
    with the time it fires and whether the ping write fails. *)
Fixpoint monitor (client : ptr) (ticks : list (Z * bool)) : go monitor_end :=
  match ticks with
  | [] => mret Ticking
  | (now, ping_err) :: rest =>
      c ← tick client now ping_err;
      match c with
      | NextTick => monitor client rest
      | Timeout => mret (TimedOut now)
      | PingError => mret (PingFailed now)
      end
  end.



(** ** The process: goroutines interleaved *)

(** What can happen next in the process.  A receive round, a tick and a
    callback each run to their end before the next event: the registry is
    only touched under [mutex], by the registration and by [cleanupClient]. *)
Inductive event : Type :=
| Upgrade (now : Z) (upgrade_err : bool)
| Receive (c : ptr) (now : Z) (r : read) (x : extern)
| Pong (c : ptr) (now : Z)
| Tick (c : ptr) (now : Z) (ping_err : bool)
| CandidateFound (p : ptr) (cand : option ICECandidateInit) (write_err : bool).

(** One more frame for the handler goroutine of [c].  When the loop returns
    or panics the goroutine is over; net/http recovers the panic and logs it,
    and the process goes on. *)
Definition handlerRound (c : ptr) (now : Z) (r : read) (x : extern) : go unit :=
  λ w,
    match serve c [(now, r, x)] w with
    | (Done Waiting, w1, t1) => (Done tt, w1, t1)
    | (Done Returned, w1, t1) =>
        (Done tt, set_readers (λ s, s ∖ {[c]}) w1, t1)
    | (Panics _, w1, t1) =>
        (Done tt, set_readers (λ s, s ∖ {[c]}) w1, t1 ++ [Log "http: panic serving"])
    end.

Definition step (e : event) : go unit :=
  w ← get;
  match e with
  | Upgrade now upgrade_err => handleWebSocket_open now upgrade_err;; mret tt
  | Receive c now r x =>
      if decide (c ∈ readers w) then handlerRound c now r x else mret tt
  | Pong c now =>
      if decide (c ∈ readers w) then pongHandler c now else mret tt
  | Tick c now ping_err =>
      if decide (c ∈ monitors w) then
        t ← tick c now ping_err;
        match t with
        | NextTick => mret tt
        | _ => modify (set_monitors (λ s, s ∖ {[c]}))
        end
      else mret tt
  | CandidateFound p cand write_err =>
      match pcs w !! p with
      | Some {| onICECandidate := Some client |} => candidateCallback client cand write_err
      | _ => mret tt
      end
  end.

Fixpoint run (es : list event) : go unit :=
  match es with
  | [] => mret tt
  | e :: rest => step e;; run rest
  end.

(** ** The variant of [handleICE] in the sibling server (part_001) *)

Module part_001.

(** [func handleICE(client *Client, candidate map[string]interface{})], with
    checked conversions for the optional fields. *)
Definition handleICE (client : ptr) (candidate : gmap string json) (x : extern)
    : go unit :=
  cl ← load client;
  match pc cl with
  | None => mret tt
  | Some p =>
      cand ← assert_string (index candidate "candidate");
      let iceCandidate :=
        {| Candidate := cand;
           SDPMid := as_string (index candidate "sdpMid");
           SDPMLineIndex := uint16 <$> as_float64 (index candidate "sdpMLineIndex");
           UsernameFragment := None |} in
      emit (Pion p (AddICECandidate iceCandidate));;
      if AddICECandidate_err x then emit (Log "AddICECandidate error:") else mret tt
  end.

End part_001.

(** ** Vocabulary for the properties *)

Fixpoint count (f : effect → bool) (t : list effect) : nat :=
  match t with
  | [] => O
  | e :: t' => if f e then S (count f t') else count f t'
  end.

Definition is_conn_close (c : ptr) (e : effect) : bool :=
  match e with ConnClose c' => Pos.eqb c c' | _ => false end.

Definition is_pc_close (e : effect) : bool :=
  match e with Pion _ PcClose => true | _ => false end.

Definition is_pc_close_of (p : ptr) (e : effect) : bool :=
  match e with Pion p' PcClose => Pos.eqb p p' | _ => false end.

Definition is_registry_delete (c : ptr) (e : effect) : bool :=
  match e with RegistryDelete c' => Pos.eqb c c' | _ => false end.

Definition is_handle_created (e : effect) : bool :=
  match e with Pion _ NewPeerConnection => true | _ => false end.

Definition is_write (c : ptr) (e : effect) : bool :=
  match e with
  | ConnWriteJSON c' _ | ConnWritePing c' => Pos.eqb c c'
  | _ => false
  end.

Definition is_answer (c : ptr) (e : effect) : bool :=
  match e with
  | ConnWriteJSON c' v =>
      Pos.eqb c c' &&
      match v !! "type" with
      | Some (PString s) => String.eqb s "answer"
      | _ => false
      end
  | _ => false
  end.

Definition is_candidate_added (e : effect) : bool :=
  match e with Pion _ (AddICECandidate _) => true | _ => false end.

Definition is_mutex (e : effect) : bool :=
  match e with MutexLock | MutexUnlock => true | _ => false end.

(** Every write to the transport of [c] in the trace happens while [c.mu]
    is held; [held] tells whether it is held where the trace starts. *)
Fixpoint writes_locked (c : ptr) (held : bool) (t : list effect) : bool :=
  match t with
  | [] => true
  | e :: t' =>
      match e with
      | MuLock c' => writes_locked c (Pos.eqb c c' || held) t'
      | MuUnlock c' => writes_locked c (negb (Pos.eqb c c') && held) t'
      | ConnWriteJSON c' _ | ConnWritePing c' =>
          (negb (Pos.eqb c c') || held) && writes_locked c held t'
      | _ => writes_locked c held t'
      end
  end.

(** The transport of a client counts as open until [Close] is called on it. *)
Definition transport_open (cl : Client) : bool :=
  match conn cl with
  | Some k => negb (closed k)
  | None => false
  end.

Definition registered (w : World) (c : ptr) : bool :=
  bool_decide (is_Some (clients w !! c)).

(** [client.pc.Close()] and [client.conn.Close()] on the world, each only
    when the field is not nil. *)
Definition close_pc (p : option ptr) (w : World) : World :=
  match p with
  | Some p =>
      set_pcs (alter (λ o,
        {| onICECandidate := onICECandidate o; pc_closed := true |}) p) w
  | None => w
  end.

Definition close_conn (c : ptr) (cl : Client) (w : World) : World :=
  match conn cl with
  | Some k =>
      set_heap <[c := with_conn
        (Some {| closed := true; readDeadline := readDeadline k |}) cl]> w
  | None => w
  end.

(** The state [cleanupClient] leaves for a registered client, and the trace
    of that call. *)
Definition torn_down (c : ptr) (cl : Client) (w : World) : World :=
  set_clients (delete c) (close_conn c cl (close_pc (pc cl) w)).

Definition teardown_trace (c : ptr) (cl : Client) : list effect :=
  [MutexLock] ++
  match pc cl with Some p => [Pion p PcClose] | None => [] end ++
  match conn cl with Some _ => [ConnClose c] | None => [] end ++
  [RegistryDelete c; Log "Client cleaned up"; MutexUnlock].

(** The world after [client.lastActivity = time.Now()]. *)
Definition touched (c : ptr) (cl : Client) (now : Z) (w : World) : World :=
  set_heap <[c := with_lastActivity now cl]> w.

(** An [ice] message as the wire format requires it: [type] is ["ice"] and
    [candidate] is an object with a string [candidate] field. *)
Definition well_formed_ice (data : gmap string json) : bool :=
  string_is (index data "type") "ice" &&
  match index data "candidate" with
  | JObject cand =>
      match index cand "candidate" with
      | JString _ => true
      | _ => false
      end
  | _ => false
  end.

(** The world after [handleOffer] has created a handle: the new peer
    connection sits at the address that was next, with the candidate
    callback of [c], and [c.pc] points to it. *)
Definition offered (c : ptr) (cl : Client) (w : World) : World :=
  set_pcs (alter (λ o,
      {| onICECandidate := Some c; pc_closed := pc_closed o |}) (nextPtr w))
    (set_heap <[c := with_pc (Some (nextPtr w)) cl]>
      (set_pcs <[nextPtr w := {| onICECandidate := None; pc_closed := false |}]>
        (set_nextPtr Pos.succ w))).

(** One of the steps after the creation of the handle reports an error. *)
Definition later_step_fails (x : extern) : bool :=
  SetRemoteDescription_err x ||
  match CreateAnswer_sdp x with
  | None => true
  | Some _ => SetLocalDescription_err x
  end.

(** Registry and transports agree: the registered clients are the clients
    whose transport is open. *)
Definition consistent (w : World) : Prop :=
  ∀ c, is_Some (clients w !! c) ↔
       ∃ cl, heap w !! c = Some cl ∧ transport_open cl = true.

(** What [consistent] looks at: the registry, and which transports are open. *)
Definition same_sessions (w w' : World) : Prop :=
  clients w' = clients w ∧
  transport_open <$> heap w' = transport_open <$> heap w.

(** A computation that neither registers, unregisters, opens nor closes. *)
Definition stable {A} (m : go A) : Prop :=
  ∀ w, same_sessions w (m w).1.2.

(** A computation that keeps registry and transports in agreement. *)
Definition keeps_consistent {A} (m : go A) : Prop :=
  ∀ w, consistent w → consistent (m w).1.2.

(** ** Sample inputs *)

(** Every external call succeeds. *)
Definition all_ok : extern :=
  {| NewPeerConnection_err := false; CreateDataChannel_err := false;
     SetRemoteDescription_err := false; CreateAnswer_sdp := Some "v=0 answer";
     SetLocalDescription_err := false; AddICECandidate_err := false;
     WriteJSON_err := false |}.

(** [pc.SetRemoteDescription] rejects the offer. *)
Definition remote_rejected : extern :=
  {| NewPeerConnection_err := false; CreateDataChannel_err := false;
     SetRemoteDescription_err := true; CreateAnswer_sdp := Some "v=0 answer";
     SetLocalDescription_err := false; AddICECandidate_err := false;
     WriteJSON_err := false |}.

(** The client a connection accepted at time 0 starts with. *)
Definition client0 : Client :=
  {| conn := Some {| closed := false; readDeadline := 60 * Second |};
     pc := None; lastActivity := 0 |}.

(** One session, at address 1, just accepted. *)
Definition session0 : World := (handleWebSocket_open 0 false empty_world).1.2.

(** The same session after a first offer was answered; its handle is at
    address 2. *)
Definition negotiating : World := (handleOffer 1 "v=0" all_ok session0).1.2.

Definition offer_without_sdp : gmap string json :=
  {[ "type" := JString "offer" ]}.

Definition valid_offer : gmap string json :=
  {[ "type" := JString "offer"; "sdp" := JString "v=0" ]}.

(** A candidate object with the [candidate] string and no optional field. *)
Definition bare_candidate : gmap string json :=
  {[ "candidate" := JString "candidate:1 1 udp 2122260223 192.0.2.1 54321 typ host" ]}.

Definition ice_message : gmap string json :=
  {[ "type" := JString "ice"; "candidate" := JObject bare_candidate ]}.

(** ** The sibling servers *)

(** [webrtc.PeerConnectionState], as [OnConnectionStateChange] reports it. *)
Inductive PeerConnectionState : Type :=
| StateNew
| StateConnecting
| StateConnected
| StateDisconnected
| StateFailed
| StateClosed.

Module part_000.

(** [func pingPongHandler(client *Client)], one tick: this server calls
    [cleanupClient] on the failed ping as well. *)
Definition tick (client : ptr) (now : Z) (ping_err : bool) : go tick_end :=
  cl ← load client;
  if 45 * Second <? now - lastActivity cl then
    emit (Log "Connection timeout, closing...");;
    cleanupClient client;;
    mret Timeout
  else
    emit (ConnWritePing client);;
    if ping_err then
      emit (Log "Ping error:");;
      cleanupClient client;;
      mret PingError
    else mret NextTick.

Fixpoint pingPongHandler (client : ptr) (ticks : list (Z * bool)) : go monitor_end :=
  match ticks with
  | [] => mret Ticking
  | (now, ping_err) :: rest =>
      c ← tick client now ping_err;
      match c with
      | NextTick => pingPongHandler client rest
      | Timeout => mret (TimedOut now)
      | PingError => mret (PingFailed now)
      end
  end.

(** The callback [handleOffer] passes to [pc.OnConnectionStateChange]. *)
Definition connectionStateCallback (client : ptr) (s : PeerConnectionState)
    : go unit :=
  emit (Log "Connection state changed:");;
  match s with
  | StateFailed | StateClosed => cleanupClient client
  | _ => mret tt
  end.

(** [func handleICE(client *Client, candidate map[string]interface{})]: this
    server looks for the candidate fields one level deeper, in
    [candidate["candidate"]]. *)
Definition handleICE (client : ptr) (candidate : gmap string json) (x : extern)
    : go unit :=
  cl ← load client;
  match pc cl with
  | None => mret tt
  | Some p =>
      match as_map (index candidate "candidate") with
      | None => emit (Log "Invalid candidate format")
      | Some candidateMap =>
          cand ← assert_string (index candidateMap "candidate");
          let iceCandidate :=
            {| Candidate := cand;
               SDPMid := as_string (index candidateMap "sdpMid");
               SDPMLineIndex :=
                 uint16 <$> as_float64 (index candidateMap "sdpMLineIndex");
               UsernameFragment := None |} in
          emit (Pion p (AddICECandidate iceCandidate));;
          if AddICECandidate_err x then emit (Log "AddICECandidate error:")
          else mret tt
      end
  end.

End part_000.

Module part_002.

(** [func cleanupClient(client *Client)] of this server: the one of
    [main.go] with a log line after each close. *)
Definition cleanupClient (client : ptr) : go unit :=
  emit MutexLock;;
  defer (emit MutexUnlock)
    (w ← get;
     match clients w !! client with
     | Some _ =>
         cl ← load client;
         match pc cl with
         | Some p =>
             emit (Pion p PcClose);;
             modify (set_pcs (alter (λ o,
               {| onICECandidate := onICECandidate o; pc_closed := true |}) p));;
             emit (Log "PeerConnection closed")
         | None => mret tt
         end;;
         match conn cl with
         | Some k =>
             emit (ConnClose client);;
             store client (with_conn
               (Some {| closed := true; readDeadline := readDeadline k |}));;
             emit (Log "WebSocket connection closed")
         | None => mret tt
         end;;
         emit (RegistryDelete client);;
         modify (set_clients (delete client));;
         emit (Log "Client cleaned up")
     | None => mret tt
     end).

(** [func handleOffer(client *Client, sdp string)] of this server.  It waits
    for the end of candidate gathering and answers with the SDP of
    [pc.LocalDescription()], which is the argument [final_sdp].  The calls
    [GatheringCompletePromise] and [LocalDescription] leave nothing in the
    trace; the wait is taken to end. *)
Definition handleOffer (client : ptr) (sdp : string) (x : extern)
    (final_sdp : string) : go unit :=
  if NewPeerConnection_err x then emit (Log "PeerConnection error:")
  else
    w ← get;
    let p := nextPtr w in
    emit (Pion p NewPeerConnection);;
    modify (set_nextPtr Pos.succ);;
    modify (set_pcs <[p := {| onICECandidate := None; pc_closed := false |}]>);;
    store client (with_pc (Some p));;
    emit (Pion p OnICECandidate);;
    modify (set_pcs (alter (λ o,
      {| onICECandidate := Some client; pc_closed := pc_closed o |}) p));;
    emit (Pion p OnICEConnectionStateChange);;
    emit (Pion p OnConnectionStateChange);;
    emit (Pion p (CreateDataChannel "chat"));;
    (if CreateDataChannel_err x then emit (Log "DataChannel error:") else mret tt);;
    emit (Pion p (SetRemoteDescription sdp));;
    if SetRemoteDescription_err x then emit (Log "SetRemoteDescription error:")
    else
      emit (Pion p CreateAnswer);;
      match CreateAnswer_sdp x with
      | None => emit (Log "CreateAnswer error:")
      | Some answer =>
          emit (Pion p (SetLocalDescription answer));;
          if SetLocalDescription_err x then emit (Log "SetLocalDescription error:")
          else
            emit (Log "Sending answer with TURN support");;
            err ← sendJSON client
                    {[ "type" := PString "answer"; "sdp" := PString final_sdp ]}
                    (WriteJSON_err x);
            if err : bool then emit (Log "Failed to send answer:") else mret tt
      end.

(** [func handleICE(client *Client, candidate map[string]interface{})] of
    this server. *)
Definition handleICE (client : ptr) (candidate : gmap string json) (x : extern)
    : go unit :=
  cl ← load client;
  match pc cl with
  | None => emit (Log "PeerConnection is nil, ignoring ICE candidate")
  | Some p =>
      cand ← assert_string (index candidate "candidate");
      let iceCandidate :=
        {| Candidate := cand;
           SDPMid := as_string (index candidate "sdpMid");
           SDPMLineIndex := uint16 <$> as_float64 (index candidate "sdpMLineIndex");
           UsernameFragment := None |} in
      emit (Log "Adding ICE candidate:");;
      emit (Pion p (AddICECandidate iceCandidate));;
      if AddICECandidate_err x then emit (Log "Failed to add ICE candidate:")
      else mret tt
  end.

(** One round of the receive loop of this server: the read error calls
    [cleanupClient] itself, and nothing is deferred. *)
Definition receive (client : ptr) (now : Z) (r : read) (x : extern)
    (final_sdp : string) : go ctl :=
  match r with
  | ReadError =>
      emit (Log "Read error:");;
      cleanupClient client;;
      mret Return
  | Frame decoded =>
      store client (with_lastActivity now);;
      match decoded with
      | None => emit (Log "JSON unmarshal error:");; mret Continue
      | Some data =>
          if string_is (index data "type") "offer" then
            emit (Log "Received offer");;
            sdp ← assert_string (index data "sdp");
            handleOffer client sdp x final_sdp;;
            mret Continue
          else if string_is (index data "type") "ice" then
            candidate ← assert_map (index data "candidate");
            emit (Log "Received ICE candidate:");;
            handleICE client candidate x;;
            mret Continue
          else mret Continue
      end
  end.

(** The receive loop of this server, to the end of [handleWebSocket]. *)
Fixpoint serve (client : ptr) (inputs : list (Z * read * extern * string))
    : go progress :=
  match inputs with
  | [] => mret Waiting
  | (now, r, x, final_sdp) :: rest =>
      c ← receive client now r x final_sdp;
      match c with
      | Continue => serve client rest
      | Return => mret Returned
      end
  end.

End part_002.

(** ** Vocabulary for the properties, continued *)

(** A computation that relates every world to the world it leaves. *)
Definition respects (R : World → World → Prop) {A} (m : go A) : Prop :=
  ∀ w, R w (m w).1.2.

(** An update of a client record that does not reopen a transport. *)
Definition gentle (f : Client → Client) : Prop :=
  ∀ cl, transport_open (f cl) = true → transport_open cl = true.

(** From [w] to [w']: addresses are only added, and at the addresses [w]
    has given out nothing gets registered that was not, and no closed
    transport is open again. *)
Definition ages (w w' : World) : Prop :=
  (nextPtr w ≤ nextPtr w')%positive ∧
  (∀ i, (i < nextPtr w)%positive →
        is_Some (clients w' !! i) → is_Some (clients w !! i)) ∧
  (∀ i cl, (i < nextPtr w)%positive →
        heap w !! i = Some cl → transport_open cl = false →
        ∃ cl', heap w' !! i = Some cl' ∧ transport_open cl' = false).

(** Every client sits at an address that was given out. *)
Definition allocated (w : World) : Prop :=
  ∀ i, is_Some (heap w !! i) → (i < nextPtr w)%positive.

Definition keeps_allocated (w w' : World) : Prop :=
  allocated w → allocated w'.

(** A frame whose [type] is neither ["offer"] nor ["ice"]. *)
Definition other_type (data : gmap string json) : bool :=
  negb (string_is (index data "type") "offer") &&
  negb (string_is (index data "type") "ice").


(** The states at which the connection-state callback of [part_000] tears
    the session down. *)
Definition terminal (s : PeerConnectionState) : bool :=
  match s with
  | StateFailed | StateClosed => true
  | _ => false
  end.

(** ** Sample inputs, continued *)


Definition conn0 : Conn := {| closed := false; readDeadline := 60 * Second |}.

(** [client0] once it holds handle 2, and once it is torn down. *)
Definition client0_negotiating : Client := with_pc (Some 2%positive) client0.

Definition client0_closed : Client :=
  with_conn (Some {| closed := true; readDeadline := 60 * Second |}) client0.

Definition unknown_message : gmap string json :=
  {[ "type" := JString "ping-unused" ]}.

Definition host_candidate : string :=
  "candidate:1 1 udp 2122260223 192.0.2.1 54321 typ host".


(** The candidate of [part_000]'s format: the fields one level deeper. *)
Definition nested_candidate : gmap string json :=
  {[ "candidate" := JObject bare_candidate ]}.

Definition sample_init : ICECandidateInit :=
  {| Candidate := host_candidate; SDPMid := Some "0";
     SDPMLineIndex := Some 0; UsernameFragment := Some "abcd" |}.

(** A session is accepted and its first read fails. *)
Definition accept_and_fail : list event :=
  [Upgrade 0 false; Receive 1 (1 * Second) ReadError all_ok].

(** What may follow: another connection, a late tick and a frame for the
    first client, a pong for it. *)
Definition aftermath : list event :=
  [Upgrade (2 * Second) false;
   Tick 1 (100 * Second) false;
   Receive 1 (101 * Second) (Frame (Some valid_offer)) all_ok;
   Pong 1 (102 * Second)].

(** * Properties *)

Ltac go_unfold :=
  cbv [mbind mret go_mbind go_mret go_bind go_ret emit throw defer get modify
       load store].

(** ** Teardown *)

(** [cleanupClient] on a client that is not in the registry takes and
    releases the registry lock, and nothing else. *)
Lemma cleanupClient_unregistered (w : World) (c : ptr) :
  clients w !! c = None →
  cleanupClient c w = (Done tt, w, [MutexLock; MutexUnlock]).
Proof.
  intros Hreg. unfold cleanupClient. go_unfold. by rewrite Hreg.
Qed.

Lemma cleanupClient_registered (w : World) (c : ptr) (cl : Client) :
  is_Some (clients w !! c) → heap w !! c = Some cl →
  cleanupClient c w = (Done tt, torn_down c cl w, teardown_trace c cl).
Proof.
  intros [b Hreg] Hcl. unfold cleanupClient, torn_down, close_conn, close_pc, teardown_trace. go_unfold.
  rewrite Hreg, Hcl.
  destruct (pc cl) as [p|], (conn cl) as [k|]; simpl; rewrite ?Hcl; try reflexivity.
Qed.

(** ** The receive loop *)

Lemma receive_malformed (w : World) (c : ptr) (cl : Client) (now : Z) (x : extern) :
  heap w !! c = Some cl →
  receive c now (Frame None) x w =
    (Done Continue, touched c cl now w, [Log "JSON unmarshal error:"]).
Proof.
  intros Hcl. unfold receive, touched. go_unfold. by rewrite Hcl.
Qed.

(** [serve] on a first round that continues: the round, then the rest. *)
Lemma serve_continue (c : ptr) (now : Z) (r : read) (x : extern)
    (rest : list (Z * read * extern)) (w w1 : World) (t1 : list effect) :
  receive c now r x w = (Done Continue, w1, t1) →
  serve c ((now, r, x) :: rest) w =
    (let '(res, w2, t2) := serve c rest w1 in (res, w2, t1 ++ t2)).
Proof.
  intros Hr. unfold serve, defer. simpl. go_unfold. rewrite Hr.
  destruct (receiveLoop c rest w1) as [[[[]|p] w2] t2]; simpl.
  - reflexivity.
  - destruct (cleanupClient c w2) as [[[|] ?] ?]; by rewrite (assoc_L (++)).
  - destruct (cleanupClient c w2) as [[[|] ?] ?]; by rewrite (assoc_L (++)).
Qed.

(** C8: a frame that [json.Unmarshal] rejects is logged and dropped, and the
    receive loop continues: the session keeps its registration, its transport
    and its negotiation handle, only the activity time moves, and the frames
    that follow are served from that state. *)
Theorem malformed_frame_dropped (w : World) (c : ptr) (cl : Client) (now : Z)
    (x : extern) (rest : list (Z * read * extern)) :
  heap w !! c = Some cl →
  receive c now (Frame None) x w =
    (Done Continue, touched c cl now w, [Log "JSON unmarshal error:"]) ∧
  clients (touched c cl now w) = clients w ∧
  heap (touched c cl now w) !! c = Some (with_lastActivity now cl) ∧
  serve c ((now, Frame None, x) :: rest) w =
    (let '(res, w2, t2) := serve c rest (touched c cl now w) in
     (res, w2, Log "JSON unmarshal error:" :: t2)).
Proof.
  intros Hcl. pose proof (receive_malformed w c cl now x Hcl) as Hr.
  repeat split; [done| |].
  - unfold touched; simpl. apply lookup_insert_eq.
  - by rewrite (serve_continue _ _ _ _ _ _ _ _ Hr).
Qed.

(** C5: a well-formed [ice] message that arrives while the session has no
    negotiation handle is dropped: the round writes nothing, logs nothing,
    closes nothing, and the loop continues; apart from the activity time the
    state is the one before. *)
Theorem early_ice_dropped (w : World) (c : ptr) (cl : Client) (now : Z)
    (data : gmap string json) (x : extern) :
  heap w !! c = Some cl →
  pc cl = None →
  well_formed_ice data = true →
  receive c now (Frame (Some data)) x w = (Done Continue, touched c cl now w, []).
Proof.
  intros Hcl Hpc Hwf. unfold well_formed_ice in Hwf.
  apply andb_prop in Hwf as [Hty Hcand].
  unfold receive, touched.
  assert (string_is (index data "type") "offer" = false) as ->.
  { unfold string_is in *. destruct (index data "type") as [| | |s| |]; try done.
    apply String.eqb_eq in Hty as ->. reflexivity. }
  rewrite Hty.
  destruct (index data "candidate") as [| | | | |cand]; try done.
  unfold handleICE. go_unfold. rewrite Hcl. simpl.
  rewrite lookup_insert_eq. simpl. rewrite Hpc. reflexivity.
Qed.

(** ** Offers *)

Lemma handleOffer_creates (w : World) (c : ptr) (cl : Client) (sdp : string)
    (x : extern) :
  heap w !! c = Some cl →
  NewPeerConnection_err x = false →
  ∃ r t,
    handleOffer c sdp x w = (r, offered c cl w, t) ∧
    count is_handle_created t = 1%nat ∧
    count is_pc_close t = 0%nat ∧
    (later_step_fails x = true → r = Done tt ∧ count (is_write c) t = 0%nat).
Proof.
  intros Hcl Hnew. unfold handleOffer, offered, later_step_fails, sendJSON.
  rewrite Hnew. go_unfold. simpl. rewrite Hcl. simpl.
  destruct x as [e1 e2 e3 a e5 e6 e7]; simpl in *.
  destruct e2, e3; simpl; try (eexists _, _; split; [reflexivity|]; repeat split; done).
  all: destruct a as [answer|]; simpl; try (eexists _, _; split; [reflexivity|]; repeat split; done).
  all: destruct e5; simpl; try (eexists _, _; split; [reflexivity|]; repeat split; done).
  all: rewrite lookup_insert_eq; simpl.
  all: destruct (conn cl); simpl.
  all: try destruct e7; simpl; try (eexists _, _; split; [reflexivity|]; repeat split; done).
Qed.

Lemma offered_client (w : World) (c : ptr) (cl : Client) :
  heap (offered c cl w) !! c = Some (with_pc (Some (nextPtr w)) cl).
Proof. unfold offered; simpl. apply lookup_insert_eq. Qed.

Lemma offered_handle (w : World) (c : ptr) (cl : Client) :
  pcs (offered c cl w) !! nextPtr w =
    Some {| onICECandidate := Some c; pc_closed := false |}.
Proof. unfold offered; simpl. by rewrite lookup_alter_eq, lookup_insert_eq. Qed.

Lemma offered_other_handle (w : World) (c : ptr) (cl : Client) (q : ptr) :
  q ≠ nextPtr w → pcs (offered c cl w) !! q = pcs w !! q.
Proof.
  intros Hq. unfold offered; simpl. by rewrite lookup_alter_ne, lookup_insert_ne.
Qed.

Lemma offered_registry (w : World) (c : ptr) (cl : Client) :
  clients (offered c cl w) = clients w.
Proof. reflexivity. Qed.

Lemma offered_next (w : World) (c : ptr) (cl : Client) :
  nextPtr (offered c cl w) = Pos.succ (nextPtr w).
Proof. reflexivity. Qed.

Lemma is_answer_answer (c : ptr) (answer : string) :
  is_answer c (ConnWriteJSON c {[ "type" := PString "answer"; "sdp" := PString answer ]})
  = true.
Proof. unfold is_answer. by rewrite Pos.eqb_refl, lookup_insert_eq. Qed.

#[local] Arguments is_answer : simpl never.

Lemma handleOffer_answers (w : World) (c : ptr) (cl : Client) (k : Conn)
    (sdp : string) (x : extern) :
  heap w !! c = Some cl →
  conn cl = Some k →
  NewPeerConnection_err x = false →
  later_step_fails x = false →
  count (is_answer c) (handleOffer c sdp x w).2 = 1%nat.
Proof.
  intros Hcl Hk Hnew Hlate. unfold handleOffer, later_step_fails, sendJSON in *.
  rewrite Hnew. go_unfold. simpl. rewrite Hcl. simpl.
  destruct x as [e1 e2 e3 a e5 e6 e7]; simpl in *.
  destruct e3; [done|]. destruct a as [answer|]; [|done]. simpl in Hlate. subst e5.
  pose proof (is_answer_answer c answer) as Ha.
  destruct e2; simpl; rewrite lookup_insert_eq; simpl; rewrite Hk;
    destruct e7; simpl; rewrite Ha; reflexivity.
Qed.

(** C2, as the code has it: an offer whose handle creation succeeds creates
    one new negotiation handle and stores it in the session, whatever handle
    the session held before; the offer is not rejected, and it is answered
    when the steps that follow succeed. *)
Theorem offer_replaces_handle (w : World) (c : ptr) (cl : Client) (sdp : string)
    (x : extern) :
  heap w !! c = Some cl →
  NewPeerConnection_err x = false →
  ∃ r w1 t,
    handleOffer c sdp x w = (r, w1, t) ∧
    count is_handle_created t = 1%nat ∧
    heap w1 !! c = Some (with_pc (Some (nextPtr w)) cl) ∧
    pcs w1 !! nextPtr w = Some {| onICECandidate := Some c; pc_closed := false |} ∧
    (∀ k, conn cl = Some k → later_step_fails x = false →
          count (is_answer c) t = 1%nat).
Proof.
  intros Hcl Hnew.
  destruct (handleOffer_creates w c cl sdp x Hcl Hnew) as (r & t & Hrun & Hone & _).
  exists r, (offered c cl w), t.
  split; [done|]. split; [done|].
  split; [apply offered_client|]. split; [apply offered_handle|].
  intros k Hk Hlate.
  pose proof (handleOffer_answers w c cl k sdp x Hcl Hk Hnew Hlate) as Ha.
  by rewrite Hrun in Ha.
Qed.

(** C10: when [handleOffer] has created a handle and a later step fails, the
    handler returns with [client.pc] still set to that handle, without having
    closed it and without an answer; [cleanupClient] then closes it; and a
    further offer stores a new handle over it, leaving the old one unclosed. *)
Theorem failed_offer_keeps_handle (w : World) (c : ptr) (cl : Client)
    (sdp : string) (x : extern) :
  heap w !! c = Some cl →
  NewPeerConnection_err x = false →
  later_step_fails x = true →
  ∃ w1 t1,
    handleOffer c sdp x w = (Done tt, w1, t1) ∧
    heap w1 !! c = Some (with_pc (Some (nextPtr w)) cl) ∧
    pcs w1 !! nextPtr w = Some {| onICECandidate := Some c; pc_closed := false |} ∧
    count is_pc_close t1 = 0%nat ∧
    count (is_write c) t1 = 0%nat ∧
    (is_Some (clients w !! c) →
       ∃ w2 t2,
         cleanupClient c w1 = (Done tt, w2, t2) ∧
         count (is_pc_close_of (nextPtr w)) t2 = 1%nat ∧
         pc_closed <$> pcs w2 !! nextPtr w = Some true) ∧
    (∀ sdp' x', NewPeerConnection_err x' = false →
       ∃ r w3 t3,
         handleOffer c sdp' x' w1 = (r, w3, t3) ∧
         heap w3 !! c = Some (with_pc (Some (Pos.succ (nextPtr w))) cl) ∧
         count is_pc_close t3 = 0%nat ∧
         pcs w3 !! nextPtr w =
           Some {| onICECandidate := Some c; pc_closed := false |}).
Proof.
  intros Hcl Hnew Hfail.
  destruct (handleOffer_creates w c cl sdp x Hcl Hnew)
    as (r & t & Hrun & _ & Hnoclose & Hlate).
  destruct (Hlate Hfail) as [-> Hnowrite].
  exists (offered c cl w), t.
  split; [done|]. split; [apply offered_client|]. split; [apply offered_handle|].
  split; [done|]. split; [done|]. split.
  - intros Hreg.
    eexists _, _. split.
    { apply cleanupClient_registered; [by rewrite offered_registry | apply offered_client]. }
    split.
    + unfold teardown_trace; simpl. rewrite Pos.eqb_refl.
      destruct (conn cl); reflexivity.
    + unfold torn_down, close_conn, close_pc; simpl.
      destruct (conn cl); simpl;
        by rewrite !lookup_alter_eq, lookup_insert_eq.
  - intros sdp' x' Hnew'.
    destruct (handleOffer_creates (offered c cl w) c _ sdp' x'
                (offered_client w c cl) Hnew') as (r' & t' & Hrun' & _ & Hnoclose' & _).
    exists r', (offered c (with_pc (Some (nextPtr w)) cl) (offered c cl w)), t'.
    split; [done|]. split; [|split; [done|]].
    + exact (offered_client (offered c cl w) c (with_pc (Some (nextPtr w)) cl)).
    + rewrite offered_other_handle by (rewrite offered_next; lia).
      apply offered_handle.
Qed.

(** ** Registry and transports *)

Lemma same_sessions_refl (w : World) : same_sessions w w.
Proof. done. Qed.

Lemma same_sessions_trans (w1 w2 w3 : World) :
  same_sessions w1 w2 → same_sessions w2 w3 → same_sessions w1 w3.
Proof. intros [? ?] [? ?]. split; congruence. Qed.

Lemma consistent_same_sessions (w w' : World) :
  same_sessions w w' → consistent w → consistent w'.
Proof.
  intros [Hc Hh] Hw c. rewrite Hc, (Hw c).
  assert (∀ v v' : World, transport_open <$> heap v = transport_open <$> heap v' →
            (∃ cl, heap v !! c = Some cl ∧ transport_open cl = true) →
            ∃ cl, heap v' !! c = Some cl ∧ transport_open cl = true) as Hdir.
  { intros v v' Heq (cl & Hcl & Hopen).
    assert ((transport_open <$> heap v') !! c = Some true) as Hl.
    { rewrite <- Heq, lookup_fmap, Hcl. simpl. by rewrite Hopen. }
    rewrite lookup_fmap in Hl. destruct (heap v' !! c) as [cl'|]; [|done].
    exists cl'. split; [done|]. by injection Hl. }
  split; apply Hdir; done.
Qed.

Lemma stable_keeps_consistent {A} (m : go A) : stable m → keeps_consistent m.
Proof. intros Hm w. apply consistent_same_sessions, Hm. Qed.

Lemma stable_ret {A} (a : A) : stable (mret a).
Proof. intros w. apply same_sessions_refl. Qed.

Lemma stable_bind {A B} (m : go A) (k : A → go B) :
  stable m → (∀ a, stable (k a)) → stable (m ≫= k).
Proof.
  intros Hm Hk w. specialize (Hm w). go_unfold.
  destruct (m w) as [[[a|p] w1] t1]; simpl in *; [|done].
  specialize (Hk a w1). destruct (k a w1) as [[r w2] t2]; simpl in *.
  by eapply same_sessions_trans.
Qed.

Lemma stable_emit (e : effect) : stable (emit e).
Proof. intros w. apply same_sessions_refl. Qed.

Lemma stable_throw {A} (p : panic) : stable (@throw A p).
Proof. intros w. apply same_sessions_refl. Qed.

Lemma stable_get : stable get.
Proof. intros w. apply same_sessions_refl. Qed.

Lemma stable_load (c : ptr) : stable (load c).
Proof. intros w. unfold load. destruct (heap w !! c); apply same_sessions_refl. Qed.

Lemma stable_modify (f : World → World) :
  (∀ w, same_sessions w (f w)) → stable (modify f).
Proof. intros Hf w. apply Hf. Qed.

Lemma stable_defer {A} (d : go unit) (body : go A) :
  stable d → stable body → stable (defer d body).
Proof.
  intros Hd Hb w. specialize (Hb w). unfold defer.
  destruct (body w) as [[r w1] t1]; simpl in *.
  specialize (Hd w1). destruct (d w1) as [[[[]|p] w2] t2]; simpl in *;
    by eapply same_sessions_trans.
Qed.

Lemma stable_store (c : ptr) (f : Client → Client) :
  (∀ cl, transport_open (f cl) = transport_open cl) → stable (store c f).
Proof.
  intros Hf w. unfold store, load. go_unfold.
  destruct (heap w !! c) as [cl|] eqn:Hcl; simpl; [|done].
  split; [done|]. simpl. apply map_eq. intros i.
  rewrite !lookup_fmap. destruct (decide (c = i)) as [->|Hne].
  - rewrite lookup_insert_eq, Hcl. simpl. by rewrite Hf.
  - by rewrite lookup_insert_ne.
Qed.

Lemma stable_assert_string (v : json) : stable (assert_string v).
Proof. destruct v; first [apply stable_ret | apply stable_throw]. Qed.

Lemma stable_assert_float64 (v : json) : stable (assert_float64 v).
Proof. destruct v; first [apply stable_ret | apply stable_throw]. Qed.

Lemma stable_assert_map (v : json) : stable (assert_map v).
Proof. destruct v; first [apply stable_ret | apply stable_throw]. Qed.

Create HintDb stable discriminated.
#[local] Hint Resolve stable_ret stable_emit stable_throw stable_get stable_load
  stable_assert_string stable_assert_float64 stable_assert_map : stable.

(** Goes through the statements of a handler; what stays open is a write to
    the world. *)
Ltac stable_step :=
  match goal with
  | |- stable (_ ≫= _) => apply stable_bind; [|intros ?]
  | |- stable (defer _ _) => apply stable_defer
  | |- stable (if ?b then _ else _) => destruct b
  | |- stable (match ?o with Some _ => _ | None => _ end) => destruct o
  | |- stable (modify _) => apply stable_modify; intros ?; done
  | |- stable (store _ _) => apply stable_store; intros ?; done
  | |- stable _ => solve [auto with stable]
  end.

Lemma stable_sendJSON (c : ptr) (data : gmap string payload) (err : bool) :
  stable (sendJSON c data err).
Proof. unfold sendJSON. repeat stable_step. Qed.

Lemma stable_candidateCallback (c : ptr) (cand : option ICECandidateInit)
    (err : bool) : stable (candidateCallback c cand err).
Proof.
  unfold candidateCallback. destruct cand; [|apply stable_ret].
  apply stable_bind; [apply stable_sendJSON|]. intros ?. repeat stable_step.
Qed.

Lemma stable_handleOffer (c : ptr) (sdp : string) (x : extern) :
  stable (handleOffer c sdp x).
Proof.
  unfold handleOffer.
  repeat first [apply stable_sendJSON | stable_step].
Qed.

Lemma stable_handleICE (c : ptr) (cand : gmap string json) (x : extern) :
  stable (handleICE c cand x).
Proof. unfold handleICE. repeat stable_step. Qed.

Lemma stable_pongHandler (c : ptr) (now : Z) : stable (pongHandler c now).
Proof.
  unfold pongHandler. apply stable_store. intros cl.
  unfold transport_open; simpl. by destruct (conn cl).
Qed.

Lemma stable_receive (c : ptr) (now : Z) (r : read) (x : extern) :
  stable (receive c now r x).
Proof.
  unfold receive. destruct r as [|[data|]].
  - repeat stable_step.
  - repeat first [apply stable_handleOffer | apply stable_handleICE | stable_step].
  - repeat stable_step.
Qed.

Lemma stable_receiveLoop (c : ptr) (inputs : list (Z * read * extern)) :
  stable (receiveLoop c inputs).
Proof.
  induction inputs as [|[[now r] x] rest IH]; simpl.
  - apply stable_ret.
  - apply stable_bind; [apply stable_receive|]. intros []; [done|apply stable_ret].
Qed.

Lemma cleanupClient_state (w : World) (c : ptr) :
  (cleanupClient c w).1.2 =
    match clients w !! c, heap w !! c with
    | Some _, Some cl => torn_down c cl w
    | _, _ => w
    end.
Proof.
  destruct (clients w !! c) as [b|] eqn:Hreg.
  - destruct (heap w !! c) as [cl|] eqn:Hcl.
    + by rewrite (cleanupClient_registered w c cl).
    + unfold cleanupClient. go_unfold. by rewrite Hreg, Hcl.
  - by rewrite cleanupClient_unregistered.
Qed.

Lemma torn_down_registry (w : World) (c : ptr) (cl : Client) :
  clients (torn_down c cl w) = delete c (clients w).
Proof. unfold torn_down, close_conn, close_pc. by destruct (conn cl), (pc cl). Qed.

Lemma torn_down_other (w : World) (c : ptr) (cl : Client) (i : ptr) :
  i ≠ c → heap (torn_down c cl w) !! i = heap w !! i.
Proof.
  intros Hne. unfold torn_down, close_conn, close_pc.
  destruct (conn cl), (pc cl); simpl; by rewrite ?lookup_insert_ne.
Qed.

Lemma torn_down_closed (w : World) (c : ptr) (cl cl' : Client) :
  heap w !! c = Some cl →
  heap (torn_down c cl w) !! c = Some cl' → transport_open cl' = false.
Proof.
  intros Hcl. unfold torn_down, close_conn, close_pc, transport_open.
  destruct (conn cl) as [k|] eqn:Hk; simpl.
  - rewrite lookup_insert_eq. by intros [= <-].
  - destruct (pc cl); simpl; rewrite Hcl; intros [= <-]; by rewrite Hk.
Qed.

Lemma torn_down_consistent (w : World) (c : ptr) (cl : Client) :
  heap w !! c = Some cl → consistent w → consistent (torn_down c cl w).
Proof.
  intros Hcl Hw i. rewrite torn_down_registry.
  destruct (decide (i = c)) as [->|Hne].
  - rewrite lookup_delete_eq. split; [by intros []|].
    intros (cl' & Hcl' & Hopen).
    by rewrite (torn_down_closed w c cl cl' Hcl Hcl') in Hopen.
  - rewrite lookup_delete_ne, torn_down_other by done. apply Hw.
Qed.

Lemma cleanupClient_keeps_consistent (c : ptr) : keeps_consistent (cleanupClient c).
Proof.
  intros w Hw. rewrite cleanupClient_state.
  destruct (clients w !! c); [|done].
  destruct (heap w !! c) as [cl|] eqn:Hcl; [|done].
  by apply torn_down_consistent.
Qed.

Lemma handleWebSocket_open_keeps_consistent (now : Z) (err : bool) :
  keeps_consistent (handleWebSocket_open now err).
Proof.
  intros w Hw. unfold handleWebSocket_open. destruct err; [done|].
  go_unfold. simpl. intros i. simpl.
  destruct (decide (i = nextPtr w)) as [->|Hne].
  - rewrite !lookup_insert_eq. split; [|by eauto].
    intros _. eexists. split; [done|]. done.
  - rewrite !lookup_insert_ne by done. apply Hw.
Qed.

Lemma keeps_consistent_bind {A B} (m : go A) (k : A → go B) :
  keeps_consistent m → (∀ a, keeps_consistent (k a)) → keeps_consistent (m ≫= k).
Proof.
  intros Hm Hk w Hw. specialize (Hm w Hw). go_unfold.
  destruct (m w) as [[[a|p] w1] t1]; simpl in *; [|done].
  specialize (Hk a w1 Hm). by destruct (k a w1) as [[r w2] t2].
Qed.

Lemma serve_keeps_consistent (c : ptr) (inputs : list (Z * read * extern)) :
  keeps_consistent (serve c inputs).
Proof.
  intros w Hw. unfold serve, defer.
  pose proof (stable_keeps_consistent _ (stable_receiveLoop c inputs) w Hw) as H1.
  pose proof (cleanupClient_keeps_consistent c) as Hc.
  destruct (receiveLoop c inputs w) as [[[[]|p] w1] t1]; simpl in *; try done.
  - specialize (Hc w1 H1). by destruct (cleanupClient c w1) as [[[[]|?] w2] t2].
  - specialize (Hc w1 H1). by destruct (cleanupClient c w1) as [[[[]|?] w2] t2].
Qed.

Lemma consistent_set_readers (f : gset ptr → gset ptr) (w : World) :
  consistent w → consistent (set_readers f w).
Proof. done. Qed.

Lemma consistent_set_monitors (f : gset ptr → gset ptr) (w : World) :
  consistent w → consistent (set_monitors f w).
Proof. done. Qed.

Lemma handlerRound_keeps_consistent (c : ptr) (now : Z) (r : read) (x : extern) :
  keeps_consistent (handlerRound c now r x).
Proof.
  intros w Hw. unfold handlerRound.
  pose proof (serve_keeps_consistent c [(now, r, x)] w Hw) as H1.
  destruct (serve c [(now, r, x)] w) as [[[[]|p] w1] t1]; simpl in *; done.
Qed.

Lemma tick_keeps_consistent (c : ptr) (now : Z) (err : bool) :
  keeps_consistent (tick c now err).
Proof.
  unfold tick. apply keeps_consistent_bind; [apply stable_keeps_consistent, stable_load|].
  intros cl. destruct (45 * Second <? now - lastActivity cl).
  - apply keeps_consistent_bind; [apply stable_keeps_consistent, stable_emit|]. intros _.
    apply keeps_consistent_bind; [apply cleanupClient_keeps_consistent|]. intros _.
    apply stable_keeps_consistent, stable_ret.
  - apply stable_keeps_consistent. repeat stable_step.
Qed.

Lemma step_keeps_consistent (e : event) : keeps_consistent (step e).
Proof.
  unfold step. apply keeps_consistent_bind; [apply stable_keeps_consistent, stable_get|].
  intros w0. destruct e as [now err|c now r x|c now|c now err|p cand err].
  - apply keeps_consistent_bind; [apply handleWebSocket_open_keeps_consistent|].
    intros _. apply stable_keeps_consistent, stable_ret.
  - destruct (decide (c ∈ readers w0)).
    + apply handlerRound_keeps_consistent.
    + apply stable_keeps_consistent, stable_ret.
  - destruct (decide (c ∈ readers w0)); apply stable_keeps_consistent;
      [apply stable_pongHandler | apply stable_ret].
  - destruct (decide (c ∈ monitors w0)).
    + apply keeps_consistent_bind; [apply tick_keeps_consistent|].
      intros []; apply stable_keeps_consistent; repeat stable_step.
    + apply stable_keeps_consistent, stable_ret.
  - apply stable_keeps_consistent.
    destruct (pcs w0 !! p) as [[[client|] ?]|];
      [apply stable_candidateCallback | apply stable_ret | apply stable_ret].
Qed.

Lemma run_keeps_consistent (es : list event) : keeps_consistent (run es).
Proof.
  induction es as [|e es IH]; simpl.
  - apply stable_keeps_consistent, stable_ret.
  - apply keeps_consistent_bind; [apply step_keeps_consistent|]. by intros _.
Qed.

Lemma empty_world_consistent : consistent empty_world.
Proof.
  intros c. simpl. rewrite !lookup_empty. split; [by intros []|].
  by intros (cl & ? & _).
Qed.

Lemma cleanupClient_critical_section (w : World) (c : ptr) :
  ∃ body,
    (cleanupClient c w).2 = MutexLock :: body ++ [MutexUnlock] ∧
    count is_mutex body = 0%nat.
Proof.
  destruct (clients w !! c) as [b|] eqn:Hreg.
  - destruct (heap w !! c) as [cl|] eqn:Hcl.
    + rewrite (cleanupClient_registered w c cl) by done.
      unfold teardown_trace; simpl.
      exists (match pc cl with Some p => [Pion p PcClose] | None => [] end ++
              match conn cl with Some _ => [ConnClose c] | None => [] end ++
              [RegistryDelete c; Log "Client cleaned up"]).
      split.
      * rewrite <- !(assoc_L (++)). reflexivity.
      * by destruct (pc cl), (conn cl).
    + exists []. unfold cleanupClient. go_unfold. by rewrite Hreg, Hcl.
  - exists []. by rewrite cleanupClient_unregistered.
Qed.


(** ** Liveness *)

Lemma cleanupClient_returns (w : World) (c : ptr) (cl : Client) :
  heap w !! c = Some cl →
  ∃ w' t, cleanupClient c w = (Done tt, w', t) ∧ clients w' !! c = None.
Proof.
  intros Hcl. destruct (clients w !! c) as [b|] eqn:Hreg.
  - eexists _, _. split; [by apply cleanupClient_registered|].
    unfold torn_down; simpl. apply lookup_delete_eq.
  - eexists _, _. split; [by apply cleanupClient_unregistered|]. done.
Qed.

Lemma tick_timeout (w : World) (c : ptr) (cl : Client) (now : Z) (err : bool)
    (w' : World) (t : list effect) :
  heap w !! c = Some cl →
  45 * Second < now - lastActivity cl →
  cleanupClient c w = (Done tt, w', t) →
  tick c now err w = (Done Timeout, w', Log "Connection timeout, closing..." :: t).
Proof.
  intros Hcl Hlate Hclean. unfold tick. go_unfold. rewrite Hcl.
  rewrite (proj2 (Z.ltb_lt _ _) Hlate). rewrite Hclean. simpl.
  by rewrite app_nil_r.
Qed.

Lemma tick_ping (w : World) (c : ptr) (cl : Client) (now : Z) :
  heap w !! c = Some cl →
  now - lastActivity cl ≤ 45 * Second →
  tick c now false w = (Done NextTick, w, [ConnWritePing c]).
Proof.
  intros Hcl Hearly. unfold tick. go_unfold. rewrite Hcl.
  by rewrite (proj2 (Z.ltb_ge _ _) Hearly).
Qed.

Lemma tick_ping_failed (w : World) (c : ptr) (cl : Client) (now : Z) :
  heap w !! c = Some cl →
  now - lastActivity cl ≤ 45 * Second →
  tick c now true w = (Done PingError, w, [ConnWritePing c; Log "Ping error:"]).
Proof.
  intros Hcl Hearly. unfold tick. go_unfold. rewrite Hcl.
  by rewrite (proj2 (Z.ltb_ge _ _) Hearly).
Qed.



(** ** Unchecked conversions *)

(** An [offer] whose [sdp] is not a string: the round panics before
    [handleOffer] is called. *)
Lemma receive_offer_without_sdp (w : World) (c : ptr) (cl : Client) (now : Z)
    (data : gmap string json) (x : extern) :
  heap w !! c = Some cl →
  string_is (index data "type") "offer" = true →
  as_string (index data "sdp") = None →
  receive c now (Frame (Some data)) x w =
    (Panics (InterfaceConversion (typeName (index data "sdp")) "string"),
     touched c cl now w, []).
Proof.
  intros Hcl Hty Hsdp. unfold receive, touched. rewrite Hty. go_unfold.
  rewrite Hcl. by destruct (index data "sdp").
Qed.

(** A round that panics ends the handler through [cleanupClient]. *)
Lemma serve_panic (c : ptr) (now : Z) (r : read) (x : extern)
    (rest : list (Z * read * extern)) (w w1 w2 : World) (p : panic)
    (t1 t2 : list effect) :
  receive c now r x w = (Panics p, w1, t1) →
  cleanupClient c w1 = (Done tt, w2, t2) →
  serve c ((now, r, x) :: rest) w = (Panics p, w2, t1 ++ t2).
Proof.
  intros Hr Hclean. unfold serve, defer. simpl. go_unfold. by rewrite Hr, Hclean.
Qed.

(** In [main.go], a candidate whose [sdpMid] is not a string makes
    [handleICE] panic once the session has a handle. *)
Lemma handleICE_without_sdpMid (w : World) (c : ptr) (cl : Client) (p : ptr)
    (candidate : gmap string json) (s : string) (x : extern) :
  heap w !! c = Some cl →
  pc cl = Some p →
  index candidate "candidate" = JString s →
  as_string (index candidate "sdpMid") = None →
  handleICE c candidate x w =
    (Panics (InterfaceConversion (typeName (index candidate "sdpMid")) "string"),
     w, []).
Proof.
  intros Hcl Hpc Hs Hmid. unfold handleICE. go_unfold. rewrite Hcl, Hpc, Hs. simpl.
  by destruct (index candidate "sdpMid").
Qed.

(** ** The handlers on sample inputs *)

Lemma session0_client : heap session0 !! 1%positive = Some client0.
Proof. reflexivity. Defined.

Lemma session0_registered : is_Some (clients session0 !! 1%positive).
Proof. by exists true. Defined.

(** C1: an [offer] frame without [sdp] makes the unchecked conversion
    [data["sdp"].(string)] panic; the handler unwinds through its deferred
    [cleanupClient], so the session is closed and unregistered, and the valid
    offer that follows is never read: no handle is created and no answer is
    written. *)
Theorem offer_without_sdp_ends_session :
  let '(r, w, t) :=
    run [Upgrade 0 false;
         Receive 1 (1 * Second) (Frame (Some offer_without_sdp)) all_ok;
         Receive 1 (2 * Second) (Frame (Some valid_offer)) all_ok] empty_world in
  receive 1 (1 * Second) (Frame (Some offer_without_sdp)) all_ok session0 =
    (Panics (InterfaceConversion "nil" "string"),
     touched 1 client0 (1 * Second) session0, []) ∧
  registered w 1 = false ∧
  transport_open <$> heap w !! 1%positive = Some false ∧
  count (is_conn_close 1) t = 1%nat ∧
  count (is_registry_delete 1) t = 1%nat ∧
  count is_handle_created t = 0%nat ∧
  count (is_answer 1) t = 0%nat.
Proof. vm_compute. repeat split. Qed.

(** The same two frames when the first offer is valid: both are answered. *)
Lemma valid_offers_answered :
  let '(r, w, t) :=
    run [Upgrade 0 false;
         Receive 1 (1 * Second) (Frame (Some valid_offer)) all_ok;
         Receive 1 (2 * Second) (Frame (Some valid_offer)) all_ok] empty_world in
  registered w 1 = true ∧ count (is_answer 1) t = 2%nat.
Proof. vm_compute. repeat split. Qed.

(** C2 fails on the code: two offers on one session create two negotiation
    handles, the second offer is answered like the first, and the session
    ends up holding the second handle. *)
Lemma second_offer_creates_second_handle :
  let '(r, w, t) :=
    serve 1 [(1 * Second, Frame (Some valid_offer), all_ok);
             (2 * Second, Frame (Some valid_offer), all_ok)] session0 in
  r = Done Waiting ∧
  count is_handle_created t = 2%nat ∧
  count (is_answer 1) t = 2%nat ∧
  pc <$> heap negotiating !! 1%positive = Some (Some 2%positive) ∧
  pc <$> heap w !! 1%positive = Some (Some 3%positive).
Proof. vm_compute. repeat split. Qed.

(** C7: in [main.go] a candidate object that has only the [candidate]
    string makes [candidate["sdpMid"].(string)] panic: nothing is passed to
    [AddICECandidate], and the session is torn down. *)
Theorem bare_candidate_panics :
  let '(r, w, t) :=
    serve 1 [(3 * Second, Frame (Some ice_message), all_ok)] negotiating in
  handleICE 1 bare_candidate all_ok negotiating =
    (Panics (InterfaceConversion "nil" "string"), negotiating, []) ∧
  r = Panics (InterfaceConversion "nil" "string") ∧
  count is_candidate_added t = 0%nat ∧
  registered w 1 = false ∧
  count (is_conn_close 1) t = 1%nat.
Proof. vm_compute. repeat split. Qed.


Lemma part_001_bare_candidate_forwarded :
  count is_candidate_added
    (part_001.handleICE 1 bare_candidate all_ok negotiating).2 = 1%nat.
Proof. vm_compute. reflexivity. Qed.

(** ** The outbound lock *)

Lemma sendJSON_locked (w : World) (c : ptr) (data : gmap string payload)
    (err : bool) :
  writes_locked c false (sendJSON c data err w).2 = true.
Proof.
  unfold sendJSON. go_unfold.
  destruct (heap w !! c) as [cl|]; simpl; [|done].
  destruct (conn cl); simpl; by rewrite ?Pos.eqb_refl.
Qed.

Lemma candidateCallback_locked (w : World) (c : ptr) (cand : option ICECandidateInit)
    (err : bool) :
  writes_locked c false (candidateCallback c cand err w).2 = true.
Proof.
  unfold candidateCallback, sendJSON. destruct cand as [cand|]; [|done]. go_unfold.
  destruct (heap w !! c) as [cl|]; simpl; [|done].
  destruct (conn cl); simpl; [|done].
  destruct err; simpl; by rewrite ?Pos.eqb_refl.
Qed.

Lemma handleOffer_locked (w : World) (c : ptr) (cl : Client) (sdp : string)
    (x : extern) :
  heap w !! c = Some cl →
  writes_locked c false (handleOffer c sdp x w).2 = true.
Proof.
  intros Hcl. unfold handleOffer, sendJSON.
  destruct x as [e1 e2 e3 a e5 e6 e7]; simpl.
  destruct e1; [done|]. go_unfold. simpl. rewrite Hcl. simpl.
  destruct e2, e3; simpl; try done.
  all: destruct a as [answer|]; simpl; try done.
  all: destruct e5; simpl; try done.
  all: rewrite lookup_insert_eq; simpl.
  all: destruct (conn cl); simpl; try done.
  all: destruct e7; simpl; by rewrite ?Pos.eqb_refl.
Qed.

(** C9: the liveness goroutine writes its ping with [conn.WriteMessage],
    without taking [client.mu]: the write is in the trace of the tick and the
    lock is not. *)
Theorem ping_written_without_lock :
  tick 1 (30 * Second) false session0 = (Done NextTick, session0, [ConnWritePing 1]) ∧
  writes_locked 1 false (tick 1 (30 * Second) false session0).2 = false ∧
  writes_locked 1 false (handleOffer 1 "v=0" all_ok session0).2 = true.
Proof. vm_compute. repeat split. Qed.

(** A ping that fails ends the liveness goroutine of [main.go] and leaves the
    session as it is: registered, with its transport open. *)
Lemma monitor_ends_on_failed_ping (w : World) (c : ptr) (cl : Client) (now : Z)
    (rest : list (Z * bool)) :
  heap w !! c = Some cl →
  now - lastActivity cl ≤ 45 * Second →
  monitor c ((now, true) :: rest) w =
    (Done (PingFailed now), w, [ConnWritePing c; Log "Ping error:"]).
Proof.
  intros Hcl Hearly. simpl. go_unfold.
  by rewrite (tick_ping_failed w c cl now Hcl Hearly).
Qed.

Lemma serve_read_error (w : World) (c : ptr) (now : Z) (x : extern)
    (w' : World) (t : list effect) :
  cleanupClient c w = (Done tt, w', t) →
  serve c [(now, ReadError, x)] w = (Done Returned, w', Log "Read error:" :: t).
Proof.
  intros Hclean. unfold serve, defer. simpl. go_unfold. by rewrite Hclean.
Qed.

Lemma torn_down_client (w : World) (c : ptr) (cl : Client) (k : Conn) :
  conn cl = Some k →
  heap (torn_down c cl w) !! c =
    Some (with_conn (Some {| closed := true; readDeadline := readDeadline k |}) cl).
Proof.
  intros Hk. unfold torn_down, close_conn. rewrite Hk. simpl. apply lookup_insert_eq.
Qed.

Lemma torn_down_unregistered (w : World) (c : ptr) (cl : Client) :
  clients (torn_down c cl w) !! c = None.
Proof. unfold torn_down; simpl. apply lookup_delete_eq. Qed.

(** The two triggers of [main.go], the liveness timeout and the read error,
    in either order on a live session: together they close the transport
    once, close the negotiation handle (if any) once and unregister once. *)
Lemma teardown_triggers_once (w : World) (c : ptr) (cl : Client) (k : Conn)
    (late now : Z) (err : bool) (x : extern) :
  is_Some (clients w !! c) → heap w !! c = Some cl → conn cl = Some k →
  45 * Second < late - lastActivity cl →
  let timeout_first :=
    (tick c late err w).2 ++
    (serve c [(now, ReadError, x)] (tick c late err w).1.2).2 in
  let error_first :=
    (serve c [(now, ReadError, x)] w).2 ++
    (tick c late err (serve c [(now, ReadError, x)] w).1.2).2 in
  ∀ t, t = timeout_first ∨ t = error_first →
    count (is_conn_close c) t = 1%nat ∧
    count is_pc_close t = match pc cl with Some _ => 1%nat | None => 0%nat end ∧
    count (is_registry_delete c) t = 1%nat.
Proof.
  intros Hreg Hcl Hk Hlate.
  pose proof (cleanupClient_registered w c cl Hreg Hcl) as Hfirst.
  pose proof (cleanupClient_unregistered _ _ (torn_down_unregistered w c cl)) as Hsecond.
  intros timeout_first error_first t [->| ->].
  - subst timeout_first.
    rewrite (tick_timeout w c cl late err _ _ Hcl Hlate Hfirst). simpl.
    rewrite (serve_read_error _ c now x _ _ Hsecond). simpl.
    unfold teardown_trace. rewrite Hk.
    destruct (pc cl); simpl; by rewrite ?Pos.eqb_refl.
  - subst error_first.
    rewrite (serve_read_error _ c now x _ _ Hfirst). simpl.
    rewrite (tick_timeout _ c _ late err _ _ (torn_down_client w c cl k Hk) Hlate Hsecond).
    simpl. unfold teardown_trace. rewrite Hk.
    destruct (pc cl); simpl; by rewrite ?Pos.eqb_refl.
Qed.

(** C3: calling [cleanupClient] twice on a live session closes its transport
    once, closes its negotiation handle (when it has one) once and removes it
    from the registry once; the second call changes nothing and only takes
    and releases the registry lock.  The same counts hold when the two calls
    come from the liveness timeout and from the read error, in either order. *)
Theorem teardown_idempotent (w : World) (c : ptr) (cl : Client) (k : Conn) :
  is_Some (clients w !! c) → heap w !! c = Some cl → conn cl = Some k →
  (∃ w1 t1 t2,
     cleanupClient c w = (Done tt, w1, t1) ∧
     cleanupClient c w1 = (Done tt, w1, t2) ∧
     count (is_conn_close c) (t1 ++ t2) = 1%nat ∧
     count is_pc_close (t1 ++ t2) = match pc cl with Some _ => 1%nat | None => 0%nat end ∧
     (∀ p, pc cl = Some p → count (is_pc_close_of p) (t1 ++ t2) = 1%nat) ∧
     count (is_registry_delete c) (t1 ++ t2) = 1%nat ∧
     t2 = [MutexLock; MutexUnlock]) ∧
  (∀ late now err x t,
     45 * Second < late - lastActivity cl →
     t = (tick c late err w).2 ++
         (serve c [(now, ReadError, x)] (tick c late err w).1.2).2 ∨
     t = (serve c [(now, ReadError, x)] w).2 ++
         (tick c late err (serve c [(now, ReadError, x)] w).1.2).2 →
     count (is_conn_close c) t = 1%nat ∧
     count is_pc_close t = match pc cl with Some _ => 1%nat | None => 0%nat end ∧
     count (is_registry_delete c) t = 1%nat).
Proof.
  intros Hreg Hcl Hk. split.
  - exists (torn_down c cl w), (teardown_trace c cl), [MutexLock; MutexUnlock].
    split; [by eapply cleanupClient_registered|].
    split; [apply cleanupClient_unregistered, torn_down_unregistered|].
    unfold teardown_trace. rewrite Hk.
    destruct (pc cl) as [p|]; simpl; rewrite ?Pos.eqb_refl; repeat split; try done.
    intros p' [= <-]. by rewrite Pos.eqb_refl.
  - intros late now err x t Hlate Ht.
    by apply (teardown_triggers_once w c cl k late now err x Hreg Hcl Hk Hlate).
Qed.

(** ** The theorems at sample inputs *)

Lemma negotiating_client :
  heap negotiating !! 1%positive = Some (with_pc (Some 2%positive) client0).
Proof. reflexivity. Defined.

Lemma negotiating_registered : is_Some (clients negotiating !! 1%positive).
Proof. by exists true. Defined.

(** C3 on the session that holds handle 2. *)
Lemma teardown_idempotent_witness :
  ∃ w1 t1 t2,
    cleanupClient 1 negotiating = (Done tt, w1, t1) ∧
    cleanupClient 1 w1 = (Done tt, w1, t2) ∧
    count (is_conn_close 1) (t1 ++ t2) = 1%nat ∧
    count is_pc_close (t1 ++ t2) = 1%nat ∧
    (∀ p, Some 2%positive = Some p → count (is_pc_close_of p) (t1 ++ t2) = 1%nat) ∧
    count (is_registry_delete 1) (t1 ++ t2) = 1%nat ∧
    t2 = [MutexLock; MutexUnlock].
Proof.
  apply (teardown_idempotent negotiating 1 (with_pc (Some 2%positive) client0)
           {| closed := false; readDeadline := 60 * Second |}).
  - exact negotiating_registered.
  - exact negotiating_client.
  - reflexivity.
Defined.

(** C8 on the fresh session, with a valid offer after the bad frame. *)
Lemma malformed_frame_dropped_witness :
  receive 1 (1 * Second) (Frame None) all_ok session0 =
    (Done Continue, touched 1 client0 (1 * Second) session0,
     [Log "JSON unmarshal error:"]) ∧
  clients (touched 1 client0 (1 * Second) session0) = clients session0 ∧
  heap (touched 1 client0 (1 * Second) session0) !! 1%positive =
    Some (with_lastActivity (1 * Second) client0) ∧
  serve 1 [(1 * Second, Frame None, all_ok);
           (2 * Second, Frame (Some valid_offer), all_ok)] session0 =
    (let '(res, w2, t2) :=
       serve 1 [(2 * Second, Frame (Some valid_offer), all_ok)]
         (touched 1 client0 (1 * Second) session0) in
     (res, w2, Log "JSON unmarshal error:" :: t2)).
Proof.
  apply (malformed_frame_dropped session0 1 client0 (1 * Second) all_ok
           [(2 * Second, Frame (Some valid_offer), all_ok)]).
  exact session0_client.
Defined.

(** C5 on the fresh session. *)
Lemma early_ice_dropped_witness :
  receive 1 (1 * Second) (Frame (Some ice_message)) all_ok session0 =
    (Done Continue, touched 1 client0 (1 * Second) session0, []).
Proof.
  apply (early_ice_dropped session0 1 client0 (1 * Second) ice_message all_ok).
  - exact session0_client.
  - reflexivity.
  - vm_compute. reflexivity.
Defined.


(** C2, as the code has it, on the session that already holds handle 2. *)
Lemma offer_replaces_handle_witness :
  ∃ r w1 t,
    handleOffer 1 "v=0" all_ok negotiating = (r, w1, t) ∧
    count is_handle_created t = 1%nat ∧
    heap w1 !! 1%positive =
      Some (with_pc (Some (nextPtr negotiating)) (with_pc (Some 2%positive) client0)) ∧
    pcs w1 !! nextPtr negotiating =
      Some {| onICECandidate := Some 1%positive; pc_closed := false |} ∧
    (∀ k, conn (with_pc (Some 2%positive) client0) = Some k →
          later_step_fails all_ok = false →
          count (is_answer 1) t = 1%nat).
Proof.
  apply (offer_replaces_handle negotiating 1 (with_pc (Some 2%positive) client0)
           "v=0" all_ok).
  - exact negotiating_client.
  - reflexivity.
Defined.

(** C10 on the fresh session, with an offer that [SetRemoteDescription]
    rejects. *)
Lemma failed_offer_keeps_handle_witness :
  ∃ w1 t1,
    handleOffer 1 "v=0" remote_rejected session0 = (Done tt, w1, t1) ∧
    heap w1 !! 1%positive = Some (with_pc (Some 2%positive) client0) ∧
    pcs w1 !! 2%positive =
      Some {| onICECandidate := Some 1%positive; pc_closed := false |} ∧
    count is_pc_close t1 = 0%nat ∧
    count (is_write 1) t1 = 0%nat ∧
    (is_Some (clients session0 !! 1%positive) →
       ∃ w2 t2,
         cleanupClient 1 w1 = (Done tt, w2, t2) ∧
         count (is_pc_close_of 2) t2 = 1%nat ∧
         pc_closed <$> pcs w2 !! 2%positive = Some true) ∧
    (∀ sdp' x', NewPeerConnection_err x' = false →
       ∃ r w3 t3,
         handleOffer 1 sdp' x' w1 = (r, w3, t3) ∧
         heap w3 !! 1%positive = Some (with_pc (Some 3%positive) client0) ∧
         count is_pc_close t3 = 0%nat ∧
         pcs w3 !! 2%positive =
           Some {| onICECandidate := Some 1%positive; pc_closed := false |}).
Proof.
  apply (failed_offer_keeps_handle session0 1 client0 "v=0" remote_rejected).
  - exact session0_client.
  - reflexivity.
  - reflexivity.
Defined.

(** * Further properties of the code *)

(** ** main.go: the dispatcher and the negotiation bridge *)

(** X1: a frame that decodes to an object whose [type] is neither ["offer"]
    nor ["ice"] (absent, not a string, or any other string) takes no branch
    of the [switch]: the round only records the activity time, writes and
    logs nothing, and the loop continues. *)
Theorem unknown_type_ignored (w : World) (c : ptr) (cl : Client) (now : Z)
    (data : gmap string json) (x : extern) :
  heap w !! c = Some cl →
  other_type data = true →
  receive c now (Frame (Some data)) x w = (Done Continue, touched c cl now w, []).
Proof.
  intros Hcl Hty. unfold other_type in Hty.
  apply andb_prop in Hty as [Hoffer Hice].
  apply negb_true_iff in Hoffer, Hice.
  unfold receive, touched. rewrite Hoffer, Hice. go_unfold. by rewrite Hcl.
Qed.

(** X2: whatever the negotiation calls and the write report, [handleOffer]
    on a client with a transport returns normally; it closes neither the
    transport nor a handle, leaves the registry as it is and the transport
    open if it was. *)
Theorem handleOffer_nonfatal (w : World) (c : ptr) (cl : Client) (k : Conn)
    (sdp : string) (x : extern) :
  heap w !! c = Some cl →
  conn cl = Some k →
  ∃ w1 t,
    handleOffer c sdp x w = (Done tt, w1, t) ∧
    clients w1 = clients w ∧
    conn <$> heap w1 !! c = Some (Some k) ∧
    count (is_conn_close c) t = 0%nat ∧
    count is_pc_close t = 0%nat ∧
    count (is_registry_delete c) t = 0%nat.
Proof.
  intros Hcl Hk. unfold handleOffer, sendJSON.
  destruct x as [e1 e2 e3 a e5 e6 e7]; simpl.
  destruct e1.
  { go_unfold. eexists _, _. split; [reflexivity|]. rewrite Hcl. simpl.
    by rewrite Hk. }
  go_unfold. simpl. rewrite Hcl. simpl.
  destruct e2, e3; simpl;
    try (eexists _, _; split; [reflexivity|]; simpl;
         rewrite lookup_insert_eq; simpl; rewrite Hk; done).
  all: destruct a as [answer|]; simpl;
    try (eexists _, _; split; [reflexivity|]; simpl;
         rewrite lookup_insert_eq; simpl; rewrite Hk; done).
  all: destruct e5; simpl;
    try (eexists _, _; split; [reflexivity|]; simpl;
         rewrite lookup_insert_eq; simpl; rewrite Hk; done).
  all: rewrite lookup_insert_eq; simpl; rewrite Hk.
  all: destruct e7; simpl; eexists _, _; (split; [reflexivity|]); simpl;
    rewrite lookup_insert_eq; simpl; rewrite Hk; done.
Qed.


(** X4: when every step succeeds, [handleOffer] makes the calls in this
    order, and then writes one answer, under the client's lock, that carries
    the SDP [CreateAnswer] returned. *)
Theorem handleOffer_success_trace (w : World) (c : ptr) (cl : Client) (k : Conn)
    (sdp answer : string) (x : extern) :
  heap w !! c = Some cl →
  conn cl = Some k →
  NewPeerConnection_err x = false →
  CreateDataChannel_err x = false →
  SetRemoteDescription_err x = false →
  CreateAnswer_sdp x = Some answer →
  SetLocalDescription_err x = false →
  WriteJSON_err x = false →
  handleOffer c sdp x w =
    (Done tt, offered c cl w,
     [Log "Received offer, creating PeerConnection";
      Pion (nextPtr w) NewPeerConnection;
      Pion (nextPtr w) OnICECandidate;
      Pion (nextPtr w) OnICEConnectionStateChange;
      Pion (nextPtr w) OnConnectionStateChange;
      Pion (nextPtr w) (CreateDataChannel "chat");
      Pion (nextPtr w) (SetRemoteDescription sdp);
      Pion (nextPtr w) CreateAnswer;
      Pion (nextPtr w) (SetLocalDescription answer);
      MuLock c;
      ConnWriteJSON c {[ "type" := PString "answer"; "sdp" := PString answer ]};
      MuUnlock c]).
Proof.
  intros Hcl Hk H1 H2 H3 H4 H5 H6. unfold handleOffer, sendJSON, offered.
  rewrite H1, H2, H3, H4, H5, H6. go_unfold. simpl. rewrite Hcl. simpl.
  rewrite lookup_insert_eq. simpl. rewrite Hk. reflexivity.
Qed.


(** X6: the candidate callback sends nothing for the nil candidate that
    ends the gathering; for a candidate it writes one [ice] message with
    that candidate, between taking and releasing the client's lock, and a
    write error is only logged. *)
Theorem candidateCallback_sends (w : World) (c : ptr) (cl : Client) (k : Conn)
    (cand : ICECandidateInit) (write_err : bool) :
  heap w !! c = Some cl →
  conn cl = Some k →
  candidateCallback c None write_err w = (Done tt, w, []) ∧
  candidateCallback c (Some cand) write_err w =
    (Done tt, w,
     [MuLock c;
      ConnWriteJSON c {[ "type" := PString "ice"; "candidate" := PCandidate cand ]};
      MuUnlock c] ++
     if write_err then [Log "Write ICE candidate error:"] else []).
Proof.
  intros Hcl Hk. split; [reflexivity|].
  unfold candidateCallback, sendJSON. go_unfold. rewrite Hcl, Hk.
  by destruct write_err.
Qed.

(** ** main.go: liveness *)

(** X7: a pong moves the activity time and the read deadline, so a tick
    that comes up to 45 seconds after it sends a ping and tears nothing
    down, however long the session had been silent before the pong. *)
Theorem pong_postpones_timeout (w : World) (c : ptr) (cl : Client) (k : Conn)
    (pong now : Z) :
  heap w !! c = Some cl →
  conn cl = Some k →
  now - pong ≤ 45 * Second →
  ∃ w1,
    pongHandler c pong w = (Done tt, w1, []) ∧
    heap w1 !! c =
      Some {| conn := Some {| closed := closed k;
                              readDeadline := pong + 60 * Second |};
              pc := pc cl; lastActivity := pong |} ∧
    clients w1 = clients w ∧
    tick c now false w1 = (Done NextTick, w1, [ConnWritePing c]).
Proof.
  intros Hcl Hk Hnow. eexists. split.
  { unfold pongHandler, store. go_unfold. rewrite Hcl, Hk. reflexivity. }
  split; [simpl; apply lookup_insert_eq|]. split; [done|].
  eapply tick_ping; [simpl; apply lookup_insert_eq|]. done.
Qed.

Lemma run_cons (e : event) (es : list event) (w w1 : World) (t1 : list effect) :
  step e w = (Done tt, w1, t1) →
  run (e :: es) w = (let '(r, w2, t2) := run es w1 in (r, w2, t1 ++ t2)).
Proof. intros Hstep. simpl. go_unfold. by rewrite Hstep. Qed.

Lemma step_tick_over (w : World) (c : ptr) (now : Z) (err : bool) :
  c ∉ monitors w → step (Tick c now err) w = (Done tt, w, []).
Proof. intros Hc. unfold step. go_unfold. by rewrite decide_False. Qed.

(** X8: in [main.go] a ping that fails ends the liveness goroutine without
    a teardown: the session stays registered with its transport as it was,
    and the ticks that would follow are not served any more. *)
Theorem failed_ping_ends_monitor (w : World) (c : ptr) (cl : Client) (now : Z)
    (later : list (Z * bool)) :
  heap w !! c = Some cl →
  c ∈ monitors w →
  now - lastActivity cl ≤ 45 * Second →
  step (Tick c now true) w =
    (Done tt, set_monitors (λ s, s ∖ {[c]}) w,
     [ConnWritePing c; Log "Ping error:"]) ∧
  run ((λ e, Tick c e.1 e.2) <$> later) (set_monitors (λ s, s ∖ {[c]}) w) =
    (Done tt, set_monitors (λ s, s ∖ {[c]}) w, []).
Proof.
  intros Hcl Hmon Hearly. split.
  - unfold step. go_unfold. rewrite decide_True by done.
    by rewrite (tick_ping_failed w c cl now Hcl Hearly).
  - assert (c ∉ monitors (set_monitors (λ s, s ∖ {[c]}) w)) as Hover
      by (simpl; apply not_elem_of_difference; right; by apply elem_of_singleton).
    induction later as [|[t e] later IH]; [done|].
    rewrite fmap_cons.
    rewrite (run_cons _ _ _ _ _ (step_tick_over _ c t e Hover)).
    by rewrite IH.
Qed.

(** ** main.go: sessions over the life of the process *)

Section respects.
Context (R : World → World → Prop).
Hypothesis R_refl : ∀ w, R w w.
Hypothesis R_trans : ∀ w1 w2 w3, R w1 w2 → R w2 w3 → R w1 w3.
Hypothesis R_pcs : ∀ f w, R w (set_pcs f w).
Hypothesis R_next : ∀ w, R w (set_nextPtr Pos.succ w).
Hypothesis R_readers : ∀ f w, R w (set_readers f w).
Hypothesis R_monitors : ∀ f w, R w (set_monitors f w).
Hypothesis R_delete : ∀ c w, R w (set_clients (delete c) w).
Hypothesis R_store : ∀ c f w cl,
  gentle f → heap w !! c = Some cl → R w (set_heap <[c := f cl]> w).
Hypothesis R_open : ∀ now err, respects R (handleWebSocket_open now err).

Lemma respects_ret {A} (a : A) : respects R (mret a).
Proof. intros w. apply R_refl. Qed.

Lemma respects_bind {A B} (m : go A) (k : A → go B) :
  respects R m → (∀ a, respects R (k a)) → respects R (m ≫= k).
Proof.
  intros Hm Hk w. specialize (Hm w). go_unfold.
  destruct (m w) as [[[a|p] w1] t1]; simpl in *; [|done].
  specialize (Hk a w1). destruct (k a w1) as [[r w2] t2]; simpl in *.
  by eapply R_trans.
Qed.

Lemma respects_emit (e : effect) : respects R (emit e).
Proof. intros w. apply R_refl. Qed.

Lemma respects_throw {A} (p : panic) : respects R (@throw A p).
Proof. intros w. apply R_refl. Qed.

Lemma respects_get : respects R get.
Proof. intros w. apply R_refl. Qed.

Lemma respects_load (c : ptr) : respects R (load c).
Proof. intros w. unfold load. destruct (heap w !! c); apply R_refl. Qed.

Lemma respects_defer {A} (d : go unit) (body : go A) :
  respects R d → respects R body → respects R (defer d body).
Proof.
  intros Hd Hb w. specialize (Hb w). unfold defer.
  destruct (body w) as [[r w1] t1]; simpl in *.
  specialize (Hd w1). destruct (d w1) as [[[[]|p] w2] t2]; simpl in *;
    by eapply R_trans.
Qed.

Lemma respects_store (c : ptr) (f : Client → Client) :
  gentle f → respects R (store c f).
Proof.
  intros Hf w. unfold store, load. go_unfold.
  destruct (heap w !! c) as [cl|] eqn:Hcl; simpl; [by apply R_store|apply R_refl].
Qed.

Lemma respects_assert_string (v : json) : respects R (assert_string v).
Proof. destruct v; first [apply respects_ret | apply respects_throw]. Qed.

Lemma respects_assert_float64 (v : json) : respects R (assert_float64 v).
Proof. destruct v; first [apply respects_ret | apply respects_throw]. Qed.

Lemma respects_assert_map (v : json) : respects R (assert_map v).
Proof. destruct v; first [apply respects_ret | apply respects_throw]. Qed.

Ltac respects_step :=
  match goal with
  | |- respects _ (_ ≫= _) => apply respects_bind; [|intros ?]
  | |- respects _ (defer _ _) => apply respects_defer
  | |- respects _ (if ?b then _ else _) => destruct b
  | |- respects _ (match ?o with Some _ => _ | None => _ end) => destruct o
  | |- respects _ (mret _) => apply respects_ret
  | |- respects _ (emit _) => apply respects_emit
  | |- respects _ (throw _) => apply respects_throw
  | |- respects _ get => apply respects_get
  | |- respects _ (load _) => apply respects_load
  | |- respects _ (assert_string _) => apply respects_assert_string
  | |- respects _ (assert_float64 _) => apply respects_assert_float64
  | |- respects _ (assert_map _) => apply respects_assert_map
  | |- respects _ (modify (set_pcs _)) => intros ?; apply R_pcs
  | |- respects _ (modify (set_nextPtr _)) => intros ?; apply R_next
  | |- respects _ (modify (set_readers _)) => intros ?; apply R_readers
  | |- respects _ (modify (set_monitors _)) => intros ?; apply R_monitors
  | |- respects _ (modify (set_clients (delete _))) => intros ?; apply R_delete
  | |- respects _ (store _ _) =>
      apply respects_store; intros cl; unfold transport_open; simpl;
      try done; by destruct (conn cl)
  end.

Lemma respects_sendJSON (c : ptr) (data : gmap string payload) (err : bool) :
  respects R (sendJSON c data err).
Proof. unfold sendJSON. repeat respects_step. Qed.

Lemma respects_candidateCallback (c : ptr) (cand : option ICECandidateInit)
    (err : bool) : respects R (candidateCallback c cand err).
Proof.
  unfold candidateCallback. destruct cand; [|apply respects_ret].
  apply respects_bind; [apply respects_sendJSON|]. intros ?. repeat respects_step.
Qed.

Lemma respects_handleOffer (c : ptr) (sdp : string) (x : extern) :
  respects R (handleOffer c sdp x).
Proof.
  unfold handleOffer. repeat first [apply respects_sendJSON | respects_step].
Qed.

Lemma respects_handleICE (c : ptr) (cand : gmap string json) (x : extern) :
  respects R (handleICE c cand x).
Proof. unfold handleICE. repeat respects_step. Qed.

Lemma respects_cleanupClient (c : ptr) : respects R (cleanupClient c).
Proof. unfold cleanupClient. repeat respects_step. Qed.

Lemma respects_pongHandler (c : ptr) (now : Z) : respects R (pongHandler c now).
Proof. unfold pongHandler. respects_step. Qed.

Lemma respects_receive (c : ptr) (now : Z) (r : read) (x : extern) :
  respects R (receive c now r x).
Proof.
  unfold receive. destruct r as [|[data|]];
    repeat first [apply respects_handleOffer | apply respects_handleICE
                 | respects_step].
Qed.

Lemma respects_receiveLoop (c : ptr) (inputs : list (Z * read * extern)) :
  respects R (receiveLoop c inputs).
Proof.
  induction inputs as [|[[now r] x] rest IH]; simpl.
  - apply respects_ret.
  - apply respects_bind; [apply respects_receive|].
    intros []; [done|apply respects_ret].
Qed.

Lemma respects_serve (c : ptr) (inputs : list (Z * read * extern)) :
  respects R (serve c inputs).
Proof.
  intros w. unfold serve.
  pose proof (respects_receiveLoop c inputs w) as H1.
  pose proof (respects_defer _ _ (respects_cleanupClient c)
                (respects_receiveLoop c inputs) w) as H2.
  by destruct (receiveLoop c inputs w) as [[[[]|p] w1] t1].
Qed.

Lemma respects_handlerRound (c : ptr) (now : Z) (r : read) (x : extern) :
  respects R (handlerRound c now r x).
Proof.
  intros w. unfold handlerRound.
  pose proof (respects_serve c [(now, r, x)] w) as H1.
  destruct (serve c [(now, r, x)] w) as [[[[]|p] w1] t1]; simpl in *;
    [done| |]; (eapply R_trans; [apply H1|apply R_readers]).
Qed.

Lemma respects_tick (c : ptr) (now : Z) (err : bool) : respects R (tick c now err).
Proof.
  unfold tick. repeat first [apply respects_cleanupClient | respects_step].
Qed.

Lemma respects_step_event (e : event) : respects R (step e).
Proof.
  unfold step. apply respects_bind; [apply respects_get|].
  intros w0. destruct e as [now err|c now r x|c now|c now err|p cand err].
  - apply respects_bind; [apply R_open|]. intros _. apply respects_ret.
  - destruct (decide (c ∈ readers w0));
      [apply respects_handlerRound | apply respects_ret].
  - destruct (decide (c ∈ readers w0));
      [apply respects_pongHandler | apply respects_ret].
  - destruct (decide (c ∈ monitors w0)); [|apply respects_ret].
    apply respects_bind; [apply respects_tick|].
    intros []; repeat respects_step.
  - destruct (pcs w0 !! p) as [[[client|] ?]|];
      [apply respects_candidateCallback | apply respects_ret | apply respects_ret].
Qed.

Lemma respects_run (es : list event) : respects R (run es).
Proof.
  induction es as [|e es IH]; simpl.
  - apply respects_ret.
  - apply respects_bind; [apply respects_step_event|]. by intros _.
Qed.
End respects.

Lemma ages_same (w w' : World) :
  clients w' = clients w → heap w' = heap w →
  (nextPtr w ≤ nextPtr w')%positive → ages w w'.
Proof.
  intros Hc Hh Hn. split; [done|]. split.
  - intros i _. by rewrite Hc.
  - intros i cl _ Hcl Hclosed. exists cl. by rewrite Hh.
Qed.

Lemma ages_refl (w : World) : ages w w.
Proof. by apply ages_same. Qed.

Lemma ages_trans (w1 w2 w3 : World) : ages w1 w2 → ages w2 w3 → ages w1 w3.
Proof.
  intros (Hn1 & Hr1 & Hc1) (Hn2 & Hr2 & Hc2). split; [lia|]. split.
  - intros i Hi H3. apply Hr1; [done|]. apply Hr2; [lia|done].
  - intros i cl Hi Hcl Hclosed.
    destruct (Hc1 i cl Hi Hcl Hclosed) as (cl' & Hcl' & Hclosed').
    apply (Hc2 i cl'); [lia|done..].
Qed.

Lemma ages_delete (c : ptr) (w : World) : ages w (set_clients (delete c) w).
Proof.
  split; [done|]. split.
  - intros i _. simpl. rewrite lookup_delete_is_Some. by intros [_ ?].
  - intros i cl _ Hcl Hclosed. by exists cl.
Qed.

Lemma ages_store (c : ptr) (f : Client → Client) (w : World) (cl : Client) :
  gentle f → heap w !! c = Some cl → ages w (set_heap <[c := f cl]> w).
Proof.
  intros Hf Hcl. split; [done|]. split; [done|].
  intros i cl0 _ Hcl0 Hclosed. simpl.
  destruct (decide (c = i)) as [->|Hne].
  - rewrite lookup_insert_eq. exists (f cl). split; [done|].
    assert (cl0 = cl) as -> by congruence.
    destruct (transport_open (f cl)) eqn:Hopen; [|done].
    apply Hf in Hopen. congruence.
  - rewrite lookup_insert_ne by done. by exists cl0.
Qed.

Lemma ages_open (now : Z) (err : bool) : respects ages (handleWebSocket_open now err).
Proof.
  intros w. unfold handleWebSocket_open. destruct err; [apply ages_refl|].
  go_unfold. simpl. split; [simpl; lia|]. split; simpl.
  - intros i Hi. rewrite lookup_insert_ne by lia. done.
  - intros i cl Hi Hcl Hclosed. rewrite lookup_insert_ne by lia. by exists cl.
Qed.

Lemma run_ages (es : list event) : respects ages (run es).
Proof.
  apply respects_run.
  - apply ages_refl.
  - apply ages_trans.
  - intros f w. by apply ages_same.
  - intros w. apply ages_same; simpl; [done..|lia].
  - intros f w. by apply ages_same.
  - intros f w. by apply ages_same.
  - apply ages_delete.
  - apply ages_store.
  - apply ages_open.
Qed.

Lemma keeps_allocated_open (now : Z) (err : bool) :
  respects keeps_allocated (handleWebSocket_open now err).
Proof.
  intros w Hw. unfold handleWebSocket_open. destruct err; [done|].
  go_unfold. simpl. intros i. simpl.
  rewrite lookup_insert_is_Some. intros [<-|[_ Hi]]; [lia|].
  apply Hw in Hi. lia.
Qed.

Lemma run_keeps_allocated (es : list event) : respects keeps_allocated (run es).
Proof.
  apply respects_run.
  - intros w Hw. exact Hw.
  - intros w1 w2 w3 H12 H23 H1. by apply H23, H12.
  - intros f w Hw. exact Hw.
  - intros w Hw i Hi. apply Hw in Hi. simpl. lia.
  - intros f w Hw. exact Hw.
  - intros f w Hw. exact Hw.
  - intros c w Hw. exact Hw.
  - intros c f w cl _ Hcl Hw i. simpl.
    rewrite lookup_insert_is_Some. intros [<-|[_ Hi]]; apply Hw; by rewrite ?Hcl.
  - apply keeps_allocated_open.
Qed.

Lemma empty_world_allocated : allocated empty_world.
Proof. intros i. simpl. rewrite lookup_empty. by intros []. Qed.

(** X9: a session that has been torn down stays so.  From any state the
    process reaches, whatever happens next (new connections, frames, pongs,
    ticks and callbacks, for this client or for others), a client that is
    out of the registry is never registered again and its transport is never
    open again. *)
Theorem closed_session_stays_closed (es1 es2 : list event) (c : ptr) (cl : Client) :
  let w := (run es1 empty_world).1.2 in
  let w' := (run es2 w).1.2 in
  heap w !! c = Some cl →
  clients w !! c = None →
  clients w' !! c = None ∧
  ∃ cl', heap w' !! c = Some cl' ∧ transport_open cl' = false.
Proof.
  intros w w' Hcl Hgone.
  assert (consistent w) as Hw by apply run_keeps_consistent, empty_world_consistent.
  assert (allocated w) as Ha by apply run_keeps_allocated, empty_world_allocated.
  assert (transport_open cl = false) as Hclosed.
  { destruct (transport_open cl) eqn:Hopen; [|done].
    destruct (proj2 (Hw c)) as [b Hb]; [by exists cl|]. congruence. }
  destruct (run_ages es2 w) as (_ & Hreg & Hheap).
  assert (c < nextPtr w)%positive as Hc by (apply Ha; by exists cl).
  split.
  - destruct (clients w' !! c) as [b|] eqn:Hb; [|done].
    destruct (Hreg c Hc) as [b' Hb']; [by exists b|]. congruence.
  - by apply (Hheap c cl).
Qed.

(** X10: accepting a connection and tearing that session down again gives
    the registry back as it was: in any state the process reaches, the new
    client gets an address that is not in the registry, its registration adds
    that one entry, [cleanupClient] removes it, and no other client is
    touched on the way. *)
Theorem accept_then_teardown (es : list event) (now : Z) :
  let w := (run es empty_world).1.2 in
  let c := nextPtr w in
  let w1 := (handleWebSocket_open now false w).1.2 in
  let w2 := (cleanupClient c w1).1.2 in
  (handleWebSocket_open now false w).1.1 = Done (Some c) ∧
  clients w !! c = None ∧
  clients w1 = <[c := true]> (clients w) ∧
  clients w2 = clients w ∧
  (∀ i, i ≠ c → heap w2 !! i = heap w !! i).
Proof.
  intros w c w1 w2.
  assert (consistent w) as Hw by apply run_keeps_consistent, empty_world_consistent.
  assert (allocated w) as Ha by apply run_keeps_allocated, empty_world_allocated.
  assert (clients w !! c = None) as Hfresh.
  { destruct (clients w !! c) as [b|] eqn:Hb; [|done].
    destruct (proj1 (Hw c)) as (cl & Hcl & _); [by exists b|].
    assert (c < nextPtr w)%positive by (apply Ha; by exists cl). subst c. lia. }
  split; [done|]. split; [done|]. split; [done|].
  subst w2. rewrite cleanupClient_state. subst w1. simpl.
  rewrite !lookup_insert_eq. split.
  - rewrite torn_down_registry. simpl. by rewrite delete_insert_eq, delete_id.
  - intros i Hi. rewrite torn_down_other by done. simpl.
    by rewrite lookup_insert_ne.
Qed.

(** ** The sibling servers *)

Lemma part_000_tick_cases (w : World) (c : ptr) (cl : Client) (now : Z)
    (err : bool) :
  heap w !! c = Some cl →
  (∃ t, part_000.tick c now err w = (Done NextTick, w, t) ∧
        count (is_conn_close c) t = 0%nat) ∨
  (∃ e t, part_000.tick c now err w = (Done e, (cleanupClient c w).1.2, t) ∧
          e ≠ NextTick).
Proof.
  intros Hcl. destruct (cleanupClient_returns w c cl Hcl) as (w' & tr & Hclean & _).
  unfold part_000.tick. go_unfold. rewrite Hcl, Hclean. simpl.
  destruct (45 * Second <? now - lastActivity cl).
  - right. rewrite Hclean. by eexists _, _.
  - destruct err.
    + right. simpl. rewrite Hclean. by eexists _, _.
    + left. by eexists.
Qed.

(** X11: the liveness goroutine of [part_000] never ends without a
    teardown: when it returns, after the timeout or after a failed ping, it
    has called [cleanupClient] and the client is out of the registry; while
    it goes on ticking, the world is as it was. *)
Theorem part_000_monitor_exit_tears_down (w : World) (c : ptr) (cl : Client)
    (ticks : list (Z * bool)) :
  heap w !! c = Some cl →
  ∃ e w' t,
    part_000.pingPongHandler c ticks w = (Done e, w', t) ∧
    (e = Ticking → w' = w ∧ count (is_conn_close c) t = 0%nat) ∧
    (e ≠ Ticking → w' = (cleanupClient c w).1.2 ∧ clients w' !! c = None).
Proof.
  intros Hcl.
  destruct (cleanupClient_returns w c cl Hcl) as (wc & tr & Hclean & Hgone).
  induction ticks as [|[now err] ticks IH].
  - exists Ticking, w, []. by repeat split.
  - simpl. go_unfold.
    destruct (part_000_tick_cases w c cl now err Hcl)
      as [(t & -> & Hnone)|(e & t & -> & He)].
    + destruct IH as (e & w' & t' & -> & Hgo & Hend).
      exists e, w', (t ++ t'). split; [done|]. split; [|done].
      intros He. destruct (Hgo He) as [-> Hc]. split; [done|].
      clear -Hnone Hc. induction t as [|a t IHt]; simpl in *; [done|].
      destruct (is_conn_close c a); [done|auto].
    + rewrite Hclean in *. simpl.
      destruct e; [done| |]; eexists _, _, _; (split; [reflexivity|]);
        split; try done.
Qed.


(** X13: the connection-state callback of [part_000] tears the session
    down when the peer connection reports [failed] or [closed], and only
    logs for every other state. *)
Theorem part_000_state_change (w : World) (c : ptr) (cl : Client)
    (s : PeerConnectionState) :
  is_Some (clients w !! c) →
  heap w !! c = Some cl →
  part_000.connectionStateCallback c s w =
    if terminal s
    then (Done tt, torn_down c cl w,
          Log "Connection state changed:" :: teardown_trace c cl)
    else (Done tt, w, [Log "Connection state changed:"]).
Proof.
  intros Hreg Hcl. unfold part_000.connectionStateCallback. go_unfold.
  destruct s; simpl; try reflexivity;
    by rewrite (cleanupClient_registered w c cl Hreg Hcl).
Qed.

(** ** The server of part_002 *)

Lemma part_002_cleanupClient_unregistered (w : World) (c : ptr) :
  clients w !! c = None →
  part_002.cleanupClient c w = (Done tt, w, [MutexLock; MutexUnlock]).
Proof.
  intros Hreg. unfold part_002.cleanupClient. go_unfold. by rewrite Hreg.
Qed.

(** The trace of [part_002.cleanupClient] on a registered client with a
    transport. *)
Lemma part_002_cleanupClient_registered (w : World) (c : ptr) (cl : Client)
    (k : Conn) :
  is_Some (clients w !! c) → heap w !! c = Some cl → conn cl = Some k →
  part_002.cleanupClient c w =
    (Done tt, torn_down c cl w,
     [MutexLock] ++
     match pc cl with
     | Some p => [Pion p PcClose; Log "PeerConnection closed"]
     | None => []
     end ++
     [ConnClose c; Log "WebSocket connection closed";
      RegistryDelete c; Log "Client cleaned up"; MutexUnlock]).
Proof.
  intros [b Hreg] Hcl Hk.
  unfold part_002.cleanupClient, torn_down, close_conn, close_pc. go_unfold.
  rewrite Hreg, Hcl, Hk. destruct (pc cl) as [p|]; simpl; rewrite Hcl; reflexivity.
Qed.

(** X14: [cleanupClient] of [part_002] is idempotent as well: two calls on
    a live session close the transport once, close the handle (if any) once
    and unregister once, and the second call leaves the world alone. *)
Theorem part_002_teardown_idempotent (w : World) (c : ptr) (cl : Client) (k : Conn) :
  is_Some (clients w !! c) → heap w !! c = Some cl → conn cl = Some k →
  let t1 :=
    [MutexLock] ++
    match pc cl with
    | Some p => [Pion p PcClose; Log "PeerConnection closed"]
    | None => []
    end ++
    [ConnClose c; Log "WebSocket connection closed";
     RegistryDelete c; Log "Client cleaned up"; MutexUnlock] in
  part_002.cleanupClient c w = (Done tt, torn_down c cl w, t1) ∧
  part_002.cleanupClient c (torn_down c cl w) =
    (Done tt, torn_down c cl w, [MutexLock; MutexUnlock]) ∧
  count (is_conn_close c) t1 = 1%nat ∧
  count is_pc_close t1 = match pc cl with Some _ => 1%nat | None => 0%nat end ∧
  count (is_registry_delete c) t1 = 1%nat.
Proof.
  intros Hreg Hcl Hk t1. subst t1. split; [|split].
  - by apply (part_002_cleanupClient_registered w c cl k).
  - apply part_002_cleanupClient_unregistered, torn_down_unregistered.
  - destruct (pc cl); simpl; by rewrite ?Pos.eqb_refl.
Qed.

(** X15: the handler of [part_002] defers nothing, so the panic of the
    unchecked [data["sdp"].(string)] ends it with the session still in the
    registry and its transport open; only the activity time has moved.  The
    handler of [main.go], on the same frame, leaves through its deferred
    [cleanupClient] and the session is unregistered. *)
Theorem part_002_panic_leaves_session (w : World) (c : ptr) (cl : Client)
    (now : Z) (data : gmap string json) (x : extern) (final_sdp : string)
    (rest : list (Z * read * extern * string)) (rest' : list (Z * read * extern)) :
  heap w !! c = Some cl →
  string_is (index data "type") "offer" = true →
  as_string (index data "sdp") = None →
  part_002.serve c ((now, Frame (Some data), x, final_sdp) :: rest) w =
    (Panics (InterfaceConversion (typeName (index data "sdp")) "string"),
     touched c cl now w, [Log "Received offer"]) ∧
  clients (touched c cl now w) = clients w ∧
  conn <$> heap (touched c cl now w) !! c = Some (conn cl) ∧
  clients (serve c ((now, Frame (Some data), x) :: rest') w).1.2 !! c = None.
Proof.
  intros Hcl Hty Hsdp. split; [|split; [done|split]].
  - simpl. unfold part_002.receive, touched. rewrite Hty. go_unfold.
    rewrite Hcl. by destruct (index data "sdp").
  - unfold touched; simpl. by rewrite lookup_insert_eq.
  - pose proof (receive_offer_without_sdp w c cl now data x Hcl Hty Hsdp) as Hr.
    destruct (cleanupClient_returns (touched c cl now w) c (with_lastActivity now cl))
      as (w' & t & Hclean & Hgone).
    { unfold touched; simpl. apply lookup_insert_eq. }
    by rewrite (serve_panic c now _ x rest' w _ w' _ [] t Hr Hclean).
Qed.



(** X18: a read error ends the handler for good, in [main.go] through the
    deferred [cleanupClient] and in [part_002] through the call in the loop:
    the handler returns with the session torn down, and frames that would
    follow are not served. *)
Theorem read_error_ends_handler (w : World) (c : ptr) (cl : Client) (k : Conn)
    (now : Z) (x : extern) (final_sdp : string)
    (rest : list (Z * read * extern)) (rest' : list (Z * read * extern * string)) :
  is_Some (clients w !! c) → heap w !! c = Some cl → conn cl = Some k →
  serve c ((now, ReadError, x) :: rest) w =
    (Done Returned, torn_down c cl w, Log "Read error:" :: teardown_trace c cl) ∧
  (part_002.serve c ((now, ReadError, x, final_sdp) :: rest') w).1 =
    (Done Returned, torn_down c cl w) ∧
  clients (torn_down c cl w) !! c = None ∧
  transport_open <$> heap (torn_down c cl w) !! c = Some false.
Proof.
  intros Hreg Hcl Hk. split; [|split; [|split]].
  - unfold serve, defer. simpl. go_unfold.
    by rewrite (cleanupClient_registered w c cl Hreg Hcl).
  - simpl. unfold part_002.receive. go_unfold.
    by rewrite (part_002_cleanupClient_registered w c cl k Hreg Hcl Hk).
  - apply torn_down_unregistered.
  - by rewrite (torn_down_client w c cl k Hk).
Qed.

Lemma part_000_nested_candidate_forwarded :
  count is_candidate_added
    (part_000.handleICE 1 nested_candidate all_ok negotiating).2 = 1%nat.
Proof. vm_compute. reflexivity. Qed.

(** ** The further properties at sample inputs *)

Lemma unknown_type_ignored_witness :
  receive 1 (1 * Second) (Frame (Some unknown_message)) all_ok session0 =
    (Done Continue, touched 1 client0 (1 * Second) session0, []).
Proof.
  apply (unknown_type_ignored session0 1 client0 (1 * Second) unknown_message all_ok).
  - exact session0_client.
  - vm_compute. reflexivity.
Defined.

Lemma handleOffer_nonfatal_witness :
  ∃ w1 t,
    handleOffer 1 "v=0" remote_rejected session0 = (Done tt, w1, t) ∧
    clients w1 = clients session0 ∧
    conn <$> heap w1 !! 1%positive = Some (Some conn0) ∧
    count (is_conn_close 1) t = 0%nat ∧
    count is_pc_close t = 0%nat ∧
    count (is_registry_delete 1) t = 0%nat.
Proof.
  apply (handleOffer_nonfatal session0 1 client0 conn0 "v=0" remote_rejected).
  - exact session0_client.
  - reflexivity.
Defined.


Lemma handleOffer_success_trace_witness :
  handleOffer 1 "v=0" all_ok session0 =
    (Done tt, offered 1 client0 session0,
     [Log "Received offer, creating PeerConnection";
      Pion (nextPtr session0) NewPeerConnection;
      Pion (nextPtr session0) OnICECandidate;
      Pion (nextPtr session0) OnICEConnectionStateChange;
      Pion (nextPtr session0) OnConnectionStateChange;
      Pion (nextPtr session0) (CreateDataChannel "chat");
      Pion (nextPtr session0) (SetRemoteDescription "v=0");
      Pion (nextPtr session0) CreateAnswer;
      Pion (nextPtr session0) (SetLocalDescription "v=0 answer");
      MuLock 1;
      ConnWriteJSON 1
        {[ "type" := PString "answer"; "sdp" := PString "v=0 answer" ]};
      MuUnlock 1]).
Proof.
  apply (handleOffer_success_trace session0 1 client0 conn0 "v=0" "v=0 answer" all_ok);
    reflexivity.
Defined.


Lemma candidateCallback_sends_witness :
  candidateCallback 1 None false session0 = (Done tt, session0, []) ∧
  candidateCallback 1 (Some sample_init) false session0 =
    (Done tt, session0,
     [MuLock 1;
      ConnWriteJSON 1
        {[ "type" := PString "ice"; "candidate" := PCandidate sample_init ]};
      MuUnlock 1] ++
     if false then [Log "Write ICE candidate error:"] else []).
Proof.
  apply (candidateCallback_sends session0 1 client0 conn0 sample_init false);
    reflexivity.
Defined.

Lemma pong_postpones_timeout_witness :
  ∃ w1,
    pongHandler 1 (50 * Second) session0 = (Done tt, w1, []) ∧
    heap w1 !! 1%positive =
      Some {| conn := Some {| closed := closed conn0;
                              readDeadline := 50 * Second + 60 * Second |};
              pc := pc client0; lastActivity := 50 * Second |} ∧
    clients w1 = clients session0 ∧
    tick 1 (60 * Second) false w1 = (Done NextTick, w1, [ConnWritePing 1]).
Proof.
  apply (pong_postpones_timeout session0 1 client0 conn0 (50 * Second) (60 * Second)).
  - exact session0_client.
  - reflexivity.
  - vm_compute. discriminate.
Defined.

Lemma failed_ping_ends_monitor_witness :
  step (Tick 1 (30 * Second) true) session0 =
    (Done tt, set_monitors (λ s, s ∖ {[1%positive]}) session0,
     [ConnWritePing 1; Log "Ping error:"]) ∧
  run ((λ e, Tick 1 e.1 e.2) <$> [(60 * Second, false); (90 * Second, false)])
      (set_monitors (λ s, s ∖ {[1%positive]}) session0) =
    (Done tt, set_monitors (λ s, s ∖ {[1%positive]}) session0, []).
Proof.
  apply (failed_ping_ends_monitor session0 1 client0 (30 * Second)
           [(60 * Second, false); (90 * Second, false)]).
  - exact session0_client.
  - change (1%positive ∈ ({[1%positive]} ∪ ∅ : gset ptr)).
    apply elem_of_union_l. by apply elem_of_singleton.
  - vm_compute. discriminate.
Defined.

Lemma closed_session_stays_closed_witness :
  clients (run aftermath (run accept_and_fail empty_world).1.2).1.2 !! 1%positive
    = None ∧
  ∃ cl', heap (run aftermath (run accept_and_fail empty_world).1.2).1.2 !! 1%positive
           = Some cl' ∧ transport_open cl' = false.
Proof.
  apply (closed_session_stays_closed accept_and_fail aftermath 1 client0_closed).
  - vm_compute. reflexivity.
  - vm_compute. reflexivity.
Defined.

Lemma part_000_monitor_exit_tears_down_witness :
  ∃ e w' t,
    part_000.pingPongHandler 1 [(30 * Second, true); (60 * Second, false)] session0
      = (Done e, w', t) ∧
    (e = Ticking → w' = session0 ∧ count (is_conn_close 1) t = 0%nat) ∧
    (e ≠ Ticking →
       w' = (cleanupClient 1 session0).1.2 ∧ clients w' !! 1%positive = None).
Proof.
  apply (part_000_monitor_exit_tears_down session0 1 client0
           [(30 * Second, true); (60 * Second, false)]).
  exact session0_client.
Defined.


Lemma part_000_state_change_witness :
  part_000.connectionStateCallback 1 StateFailed negotiating =
    (Done tt, torn_down 1 client0_negotiating negotiating,
     Log "Connection state changed:" :: teardown_trace 1 client0_negotiating).
Proof.
  apply (part_000_state_change negotiating 1 client0_negotiating StateFailed).
  - exact negotiating_registered.
  - exact negotiating_client.
Defined.

Lemma part_002_teardown_idempotent_witness :
  part_002.cleanupClient 1 negotiating =
    (Done tt, torn_down 1 client0_negotiating negotiating,
     [MutexLock; Pion 2 PcClose; Log "PeerConnection closed";
      ConnClose 1; Log "WebSocket connection closed";
      RegistryDelete 1; Log "Client cleaned up"; MutexUnlock]) ∧
  part_002.cleanupClient 1 (torn_down 1 client0_negotiating negotiating) =
    (Done tt, torn_down 1 client0_negotiating negotiating,
     [MutexLock; MutexUnlock]).
Proof.
  pose proof (part_002_teardown_idempotent negotiating 1 client0_negotiating conn0
                negotiating_registered negotiating_client eq_refl) as (H1 & H2 & _).
  split; [exact H1 | exact H2].
Defined.

Lemma part_002_panic_leaves_session_witness :
  part_002.serve 1
    [(1 * Second, Frame (Some offer_without_sdp), all_ok, "v=0 final")] session0 =
    (Panics (InterfaceConversion (typeName (index offer_without_sdp "sdp")) "string"),
     touched 1 client0 (1 * Second) session0, [Log "Received offer"]) ∧
  clients (touched 1 client0 (1 * Second) session0) = clients session0 ∧
  conn <$> heap (touched 1 client0 (1 * Second) session0) !! 1%positive =
    Some (conn client0) ∧
  clients
    (serve 1 [(1 * Second, Frame (Some offer_without_sdp), all_ok)] session0).1.2
    !! 1%positive = None.
Proof.
  apply (part_002_panic_leaves_session session0 1 client0 (1 * Second)
           offer_without_sdp all_ok "v=0 final" [] []).
  - exact session0_client.
  - vm_compute. reflexivity.
  - vm_compute. reflexivity.
Defined.



Lemma read_error_ends_handler_witness :
  serve 1 [(1 * Second, ReadError, all_ok);
           (2 * Second, Frame (Some valid_offer), all_ok)] negotiating =
    (Done Returned, torn_down 1 client0_negotiating negotiating,
     Log "Read error:" :: teardown_trace 1 client0_negotiating) ∧
  (part_002.serve 1
     [(1 * Second, ReadError, all_ok, "v=0 final");
      (2 * Second, Frame (Some valid_offer), all_ok, "v=0 final")] negotiating).1 =
    (Done Returned, torn_down 1 client0_negotiating negotiating) ∧
  clients (torn_down 1 client0_negotiating negotiating) !! 1%positive = None ∧
  transport_open <$> heap (torn_down 1 client0_negotiating negotiating) !! 1%positive
    = Some false.
Proof.
  apply (read_error_ends_handler negotiating 1 client0_negotiating conn0
           (1 * Second) all_ok "v=0 final"
           [(2 * Second, Frame (Some valid_offer), all_ok)]
           [(2 * Second, Frame (Some valid_offer), all_ok, "v=0 final")]).
  - exact negotiating_registered.
  - exact negotiating_client.
  - reflexivity.
Defined.
